(** * The kopia vault: encrypted items on top of a blob store

    A shallow embedding of [vault/vault.go].  Byte slices are lists of
    bytes, Go's [error] is its message, a runtime panic is an outcome of
    its own, and the effects of the package (the blob store, the system
    random source, the calls into the cipher and the JSON decoder) are
    threaded through a state monad whose state also keeps the trace of
    those calls.

    The cryptographic primitives (the AES block function, HMAC-SHA-256 and
    HKDF-SHA-256), the JSON and base64 codecs and the blob store are
    collaborators of the package: they are interfaces here, and the
    theorems hold for every implementation of them. *)

From Stdlib Require Import ZArith Ascii Strings.Byte.
From stdpp Require Import base tactics option numbers list strings pretty gmap vector finite.

Local Open Scope Z_scope.

(** ** Bytes *)

Abbreviation byte := Byte.byte.
Abbreviation bytes := (list byte).

#[global] Instance byte_eq_dec : EqDecision byte := Byte.byte_eq_dec.

Definition bits8 : Type :=
  (bool * (bool * (bool * (bool * (bool * (bool * (bool * bool)))))))%type.

Definition bits_zip (f : bool → bool → bool) (a b : bits8) : bits8 :=
  let '(a0, (a1, (a2, (a3, (a4, (a5, (a6, a7))))))) := a in
  let '(b0, (b1, (b2, (b3, (b4, (b5, (b6, b7))))))) := b in
  (f a0 b0, (f a1 b1, (f a2 b2, (f a3 b3,
    (f a4 b4, (f a5 b5, (f a6 b6, f a7 b7))))))).

(** [a ^ b] and [a | b] on Go's [byte]. *)
Definition byte_xor (a b : byte) : byte :=
  Byte.of_bits (bits_zip xorb (Byte.to_bits a) (Byte.to_bits b)).

Definition byte_or (a b : byte) : byte :=
  Byte.of_bits (bits_zip orb (Byte.to_bits a) (Byte.to_bits b)).

(** [len(s)] as a Go [int]. *)
Definition len (s : bytes) : Z := Z.of_nat (length s).

(** Go's [error] values are compared and reported through their message. *)
Definition error : Type := string.

(** The three ways a call can end: a value, a returned [error], or a
    runtime panic (an index or length out of range). *)
Inductive outcome (A : Type) : Type :=
  | Ok (a : A)
  | Err (e : error)
  | Panic (why : string).
Arguments Ok {A} a.
Arguments Err {A} e.
Arguments Panic {A} why.

(** [make([]byte, n)]: panics on a negative length. *)
Definition make (n : Z) : outcome bytes :=
  if decide (0 ≤ n) then Ok (replicate (Z.to_nat n) x00)
  else Panic "makeslice: len out of range".

(** [s[lo:hi]].  The capacity of every slice is taken to be its length
    (the blob store hands out exactly the stored bytes), so the bounds are
    [0 <= lo <= hi <= len(s)]; anything else panics. *)
Definition slice (s : bytes) (lo hi : Z) : outcome bytes :=
  if decide (0 ≤ lo ∧ lo ≤ hi ∧ hi ≤ len s)
  then Ok (take (Z.to_nat (hi - lo)) (drop (Z.to_nat lo) s))
  else Panic "slice bounds out of range".

(** The buffer [buf] after [data] has been written into the window
    [buf[off:]]: as [copy(buf[off:], data)], at most the window's length
    is written. *)
Definition write_at (buf : bytes) (off : nat) (data : bytes) : bytes :=
  take off buf ++ take (length buf - off)%nat data
    ++ drop (off + length data)%nat buf.

(** ** crypto/subtle and crypto/hmac: comparison without early exit *)

(** [subtle.ConstantTimeByteEq]. *)
Definition ConstantTimeByteEq (x y : byte) : Z :=
  if decide (x = y) then 1 else 0.

(** [subtle.ConstantTimeCompare]: the lengths are compared first, then
    every pair of bytes is folded into one accumulator; no byte decides
    where the loop stops. *)
Definition ConstantTimeCompare (x y : bytes) : Z :=
  if decide (length x = length y) then
    ConstantTimeByteEq
      (foldl (λ v ab, byte_or v (byte_xor ab.1 ab.2)) x00 (zip x y)) x00
  else 0.

(** [hmac.Equal]. *)
Definition hmac_Equal (mac1 mac2 : bytes) : bool :=
  bool_decide (ConstantTimeCompare mac1 mac2 = 1).

(** ** The primitives behind crypto/aes, crypto/hmac and x/crypto/hkdf *)

Class Crypto : Type := {
  (** the AES permutation of one 16-byte block under a key *)
  aes_encrypt : bytes → vec byte 16 → vec byte 16;
  (** HMAC-SHA-256 of a message under a key: 32 bytes *)
  hmac_sha256 : bytes → bytes → vec byte 32;
  (** the output stream of HKDF-SHA-256 for (secret, salt, info) *)
  hkdf_sha256 : bytes → bytes → bytes → bytes;
}.

(** [cipher.Block] as [aes.NewCipher] builds it. *)
Record Block : Type := { blk_key : bytes }.

(** [aes.BlockSize]. *)
Definition BlockSize (blk : Block) : Z := 16.

(** [aes.NewCipher]: only 16, 24 and 32 byte keys. *)
Definition aes_NewCipher (k : bytes) : Block + error :=
  if decide (length k = 16 ∨ length k = 24 ∨ length k = 32)%nat
  then inl {| blk_key := k |}
  else inr "crypto/aes: invalid key size"%string.

(** The [(cipher.Block, error)] pair a successful or failed
    [aes.NewCipher] hands to [newCipher]'s caller. *)
Definition cipher_Block (r : Block + error) : outcome (option Block) :=
  match r with inl blk => Ok (Some blk) | inr e => Err e end.

(** [hash.Hash] as [hmac.New(sha256.New, key)] builds it. *)
Record Hash : Type := { mac_key : bytes }.

(** [sha256.Size]. *)
Definition Size (h : Hash) : Z := 32.

(** Big-endian value of a byte string, and the 16-byte big-endian block
    of a number (modulo [2^128]): the counter of CTR mode. *)
Definition be_to_N (s : bytes) : N :=
  foldl (λ acc b, (acc * 256 + Byte.to_N b)%N) 0%N s.

Definition byte_of_N (n : N) : byte :=
  default x00 (Byte.of_N (n mod 256)%N).

Fixpoint be_of_N (w : nat) (n : N) : vec byte w :=
  match w with
  | O => [#]
  | S w' => byte_of_N (n / 256 ^ N.of_nat w')%N ::: be_of_N w' n
  end.

Section crypto.
Context {C : Crypto}.

(** [hash.Write(data); hash.Sum(nil)] on a fresh HMAC. *)
Definition Sum (h : Hash) (data : bytes) : bytes :=
  vec_to_list (hmac_sha256 (mac_key h) data).

(** The key stream of [cipher.NewCTR(blk, iv)]: the encryptions of
    [iv], [iv+1], ... (the counter is the IV read as a big-endian number
    and wraps around), [n] blocks of it. *)
Fixpoint ctr_blocks (blk : Block) (ctr : N) (n : nat) : bytes :=
  match n with
  | O => []
  | S n' =>
      vec_to_list (aes_encrypt (blk_key blk) (be_of_N 16 ctr))
        ++ ctr_blocks blk ((ctr + 1) mod 2 ^ 128)%N n'
  end.

Definition keystream (blk : Block) (iv : bytes) (n : nat) : bytes :=
  take n (ctr_blocks blk (be_to_N iv) ((n + 15) / 16)%nat).

(** [hkdf.New(sha256.New, secret, salt, info)] followed by
    [io.ReadFull(k, key)] on a fresh zeroed [key] of [n] bytes: the bytes
    read overwrite the front of [key]; a short stream leaves the rest
    zero and is an [io.ErrUnexpectedEOF]. *)
Definition hkdf_ReadFull (secret salt info : bytes) (n : nat)
  : bytes * option error :=
  let got := take n (hkdf_sha256 secret salt info) in
  (got ++ replicate (n - length got)%nat x00,
   if decide (length got < n)%nat then Some "unexpected EOF"%string else None).
End crypto.

(** ** The blob store, the random source and the trace of calls *)

(** [blob.Storage] as the vault uses it: [PutBlock] (always with
    [PutOptionsOverwrite]), [GetBlock] and [DeleteBlock] on a store in
    state [St].  A Go [error] result is [None] for [nil]. *)
Class Storage (St : Type) : Type := {
  PutBlock : string → bytes → St → option error * St;
  GetBlock : string → St → bytes + error;
  DeleteBlock : string → St → option error * St;
}.

(** The calls that leave the package. *)
Inductive Event : Type :=
  | EvGetBlock (id : string)
  | EvPutBlock (id : string) (data : bytes)
  | EvDeleteBlock (id : string)
  | EvRandRead (n : nat)
  | EvXORKeyStream (iv src : bytes)
  | EvUnmarshal (data : bytes).

(** The world a call runs in: the vault's store, the bytes
    [crypto/rand.Reader] will deliver, and the calls made so far. *)
Record World (St : Type) : Type := mkWorld {
  storage : St;
  entropy : bytes;
  trace : list Event;
}.
Arguments mkWorld {St} _ _ _.
Arguments storage {St} _.
Arguments entropy {St} _.
Arguments trace {St} _.

Definition log {St} (ev : Event) (w : World St) : World St :=
  mkWorld (storage w) (entropy w) (trace w ++ [ev]).

(** Computations of the package: a world in, an outcome and a world out. *)
Definition M (St A : Type) : Type := World St → outcome A * World St.

Definition M_ret {St A} (a : A) : M St A := λ w, (Ok a, w).

Definition M_bind {St A B} (f : A → M St B) (m : M St A) : M St B :=
  λ w, match m w with
       | (Ok a, w') => f a w'
       | (Err e, w') => (Err e, w')
       | (Panic why, w') => (Panic why, w')
       end.

#[global] Instance M_mret {St} : MRet (M St) := @M_ret St.
#[global] Instance M_mbind {St} : MBind (M St) := @M_bind St.

(** A step that does not touch the world. *)
Definition lift {St A} (o : outcome A) : M St A := λ w, (o, w).

Definition of_sum {A} (r : A + error) : outcome A :=
  match r with inl a => Ok a | inr e => Err e end.

(** A call whose [error] result is dropped by the caller. *)
Definition discard_error {St} (m : M St ()) : M St () :=
  λ w, match m w with
       | (Panic why, w') => (Panic why, w')
       | (_, w') => (Ok (), w')
       end.

(** [io.ReadFull(rand.Reader, buf)] for a buffer of [n] bytes. *)
Definition rand_ReadFull {St} (n : nat) : M St bytes :=
  λ w, if decide (n ≤ length (entropy w))%nat
       then (Ok (take n (entropy w)),
             mkWorld (storage w) (drop n (entropy w)) (trace w ++ [EvRandRead n]))
       else (Err "unexpected EOF"%string,
             mkWorld (storage w) [] (trace w ++ [EvRandRead n])).

Definition storage_GetBlock {St : Type} {SS : Storage St} (id : string) : M St bytes :=
  λ w, (of_sum (GetBlock id (storage w)), log (EvGetBlock id) w).

Definition storage_PutBlock {St : Type} {SS : Storage St} (id : string) (data : bytes) : M St () :=
  λ w, let '(err, s') := PutBlock id data (storage w) in
       (match err with None => Ok () | Some e => Err e end,
        mkWorld s' (entropy w) (trace w ++ [EvPutBlock id data])).

Definition storage_DeleteBlock {St : Type} {SS : Storage St} (id : string) : M St () :=
  λ w, let '(err, s') := DeleteBlock id (storage w) in
       (match err with None => Ok () | Some e => Err e end,
        mkWorld s' (entropy w) (trace w ++ [EvDeleteBlock id])).

(** ** crypto/cipher: CTR mode *)

(** The stream [cipher.NewCTR] returns. *)
Record CTR : Type := { ctr_blk : Block; ctr_iv : bytes }.

(** [cipher.NewCTR(blk, iv)] panics unless the IV is one block long. *)
Definition cipher_NewCTR (blk : Block) (iv : bytes) : outcome CTR :=
  if decide (len iv = BlockSize blk) then Ok {| ctr_blk := blk; ctr_iv := iv |}
  else Panic "cipher.NewCTR: IV length must equal block size".

Definition xor_bytes (a b : bytes) : bytes := zip_with byte_xor a b.

(** [ctr.XORKeyStream(dst, src)] on a fresh stream: [dst] afterwards. *)
Definition XORKeyStream {C : Crypto} {St : Type} (c : CTR) (dst src : bytes) : M St bytes :=
  λ w, if decide (length dst < length src)%nat
       then (Panic "crypto/cipher: output smaller than input", w)
       else (Ok (write_at dst 0
                   (xor_bytes src (keystream (ctr_blk c) (ctr_iv c) (length src)))),
             log (EvXORKeyStream (ctr_iv c) src) w).

(** ** encoding/json *)

(** [json.Marshal] and [json.Unmarshal] at one Go type.  [json_Unmarshal
    data x] is the value behind the pointer after the call, started from
    [x], and the [error] returned. *)
Class Json (T : Type) : Type := {
  json_Marshal : T → bytes + error;
  json_Unmarshal : bytes → T → T * option error;
}.

Definition jsonUnmarshal {T : Type} {JT : Json T} {St : Type} (data : bytes) (x : T)
  : M St (T * option error) :=
  λ w, (Ok (json_Unmarshal data x), log (EvUnmarshal data) w).

(** ** The vault *)

Definition formatBlockID : string := "format".
Definition checksumBlockID : string := "checksum".
Definition repositoryConfigBlock : string := "repo".

Definition purposeAESKey : bytes := String.list_byte_of_string "AES".
Definition purposeChecksumSecret : bytes := String.list_byte_of_string "CHECKSUM".

(** [vault.Format], the descriptor stored in plaintext. *)
Record Format : Type := {
  Version : string;
  Encryption : string;
  Checksum : string;
  UniqueID : bytes;
}.

(** [Vault]: its [storage] field is the store of the world. *)
Record Vault : Type := {
  masterKey : bytes;
  format : Format;
}.

(** The [Credentials] interface. *)
Record Credentials : Type := { getMasterKey : bytes → bytes }.

Definition zeroFormat : Format :=
  {| Version := ""; Encryption := ""; Checksum := ""; UniqueID := [] |}.

Section vault.
Context {C : Crypto} {St : Type} {SS : Storage St}.
(** [blob.ConnectionInfo] and [repo.Format], opaque to the vault. *)
Context {ConnectionInfo RepoFormat : Type} {CI : Inhabited ConnectionInfo}.

Record repositoryConfig : Type := {
  Connection : ConnectionInfo;
  RFormat : RepoFormat;
}.

Record vaultConfig : Type := {
  VConnectionInfo : ConnectionInfo;
  Key : bytes;
}.

Definition zero_vaultConfig : vaultConfig :=
  {| VConnectionInfo := inhabitant; Key := [] |}.

Context {JF : Json Format} {JR : Json repositoryConfig} {JV : Json vaultConfig}.

(** [deriveKey(purpose, key)] for a zeroed [key] of [n] bytes: [key]
    afterwards, and the error returned. *)
Definition deriveKey (v : Vault) (purpose : bytes) (n : nat)
  : bytes * option error :=
  hkdf_ReadFull (masterKey v) (UniqueID (format v)) purpose n.

(** The callers drop [deriveKey]'s error. *)
Definition newChecksum (v : Vault) : outcome Hash :=
  if decide (Checksum (format v) = "hmac-sha-256") then
    let key := (deriveKey v purposeChecksumSecret 32).1 in
    Ok {| mac_key := key |}
  else Err ("unsupported checksum format: " +:+ Checksum (format v)).

(** [None] is the nil block of [encryption = "none"]. *)
Definition newCipher (v : Vault) : outcome (option Block) :=
  if decide (Encryption (format v) = "none") then Ok None
  else if decide (Encryption (format v) = "aes-128") then
    let k := (deriveKey v purposeAESKey 16).1 in
    cipher_Block (aes_NewCipher k)
  else if decide (Encryption (format v) = "aes-192") then
    let k := (deriveKey v purposeAESKey 24).1 in
    cipher_Block (aes_NewCipher k)
  else if decide (Encryption (format v) = "aes-256") then
    let k := (deriveKey v purposeAESKey 32).1 in
    cipher_Block (aes_NewCipher k)
  else Err ("unsupported encryption format: " +:+ Encryption (format v)).

Definition Put (v : Vault) (itemID : string) (content : bytes) : M St () :=
  blk ← lift (newCipher v);
  content ← match blk with
    | Some blk =>
        hash ← lift (newChecksum v);
        let ivLength := BlockSize blk in
        let ivPlusContentLength := ivLength + len content in
        cipherText ← lift (make (ivPlusContentLength + Size hash));
        (* Store IV at the beginning of ciphertext. *)
        iv ← lift (slice cipherText 0 ivLength);
        iv ← rand_ReadFull (length iv);
        let cipherText := write_at cipherText 0 iv in
        ctr ← lift (cipher_NewCTR blk iv);
        dst ← lift (slice cipherText ivLength (len cipherText));
        dst ← XORKeyStream ctr dst content;
        let cipherText := write_at cipherText (Z.to_nat ivLength) dst in
        written ← lift (slice cipherText 0 ivPlusContentLength);
        let cipherText :=
          write_at cipherText (Z.to_nat ivPlusContentLength) (Sum hash written) in
        mret cipherText
    | None => mret content
    end;
  storage_PutBlock itemID content.

Definition readEncryptedBlock (v : Vault) (itemID : string) : M St bytes :=
  content ← storage_GetBlock itemID;
  blk ← lift (newCipher v);
  match blk with
  | Some blk =>
      hash ← lift (newChecksum v);
      let p := len content - Size hash in
      written ← lift (slice content 0 p);
      let expectedChecksum := Sum hash written in
      actualChecksum ← lift (slice content p (len content));
      if negb (hmac_Equal expectedChecksum actualChecksum) then
        lift (Err "cannot read encrypted block: incorrect checksum")
      else
        let ivLength := BlockSize blk in
        plainText ← lift (make (len content - ivLength - Size hash));
        iv ← lift (slice content 0 (BlockSize blk));
        ctr ← lift (cipher_NewCTR blk iv);
        src ← lift (slice content ivLength (len content - Size hash));
        XORKeyStream ctr plainText src
  | None => mret content
  end.

Definition Get (v : Vault) (itemID : string) : M St bytes :=
  readEncryptedBlock v itemID.

(** [getJSON(itemID, content)]: the value behind [content] afterwards and
    the [error] returned. *)
Definition getJSON {T : Type} {JT : Json T} (v : Vault) (itemID : string) (content : T)
  : M St (T * option error) :=
  λ w, match readEncryptedBlock v itemID w with
       | (Ok j, w') => jsonUnmarshal j content w'
       | (Err _, w') => (Ok (content, None), w')
       | (Panic why, w') => (Panic why, w')
       end.

Definition putJSON {T : Type} {JT : Json T} (v : Vault) (id : string) (content : T) : M St () :=
  j ← lift (of_sum (json_Marshal content));
  Put v id j.

Definition Remove (v : Vault) (itemID : string) : M St () :=
  if decide (itemID = formatBlockID ∨ itemID = repositoryConfigBlock
             ∨ itemID = checksumBlockID)
  then lift (Err ("item cannot be deleted: " +:+ itemID))
  else storage_DeleteBlock itemID.

(** [Create].  The vault's store is the world's; [repoStorage] is what
    the type assertion to [blob.ConnectionInfoProvider] yields: [None]
    when the repository's store lacks the capability, its connection
    descriptor otherwise. *)
Definition Create (vaultFormat : Format) (vaultCreds : Credentials)
    (repoStorage : option ConnectionInfo) (repoFormat : RepoFormat)
  : M St Vault :=
  match repoStorage with
  | None => lift (Err "repository does not support persisting configuration")
  | Some cip =>
      uniqueID ← rand_ReadFull 32;
      let fmt := {| Version := "1";
                    Encryption := Encryption vaultFormat;
                    Checksum := Checksum vaultFormat;
                    UniqueID := uniqueID |} in
      let v := {| masterKey := getMasterKey vaultCreds uniqueID;
                  format := fmt |} in
      formatBytes ← lift (of_sum (json_Marshal fmt));
      discard_error (storage_PutBlock formatBlockID formatBytes);;
      (* Write encrypted checksum block consisting of random bytes with
         the proper checksum. *)
      vv ← rand_ReadFull 512;
      Put v checksumBlockID vv;;
      (* Write encrypted repository configuration block. *)
      putJSON v repositoryConfigBlock
        {| Connection := cip; RFormat := repoFormat |};;
      mret v
  end.

Definition Open (creds : Credentials) : M St Vault :=
  f ← storage_GetBlock formatBlockID;
  '(fmt, err) ← jsonUnmarshal f zeroFormat;
  match err with
  | Some e => lift (Err e)
  | None =>
      let v := {| masterKey := getMasterKey creds (UniqueID fmt);
                  format := fmt |} in
      readEncryptedBlock v checksumBlockID;;
      mret v
  end.

(** What [OpenWithToken] calls outside the package: base64, the store
    constructor and the raw-key credentials constructor. *)
Class TokenEnv : Type := {
  base64_RawURLEncoding_DecodeString : string → bytes + error;
  blob_NewStorage : ConnectionInfo → St + error;
  MasterKey : bytes → Credentials + error;
}.

(** [OpenWithToken].  The vault it opens lives on the store the token
    names: from [blob.NewStorage] on, that store is the world's. *)
Definition OpenWithToken {TE : TokenEnv} (token : string) : M St Vault :=
  match base64_RawURLEncoding_DecodeString token with
  | inr err => lift (Err ("invalid vault base64 token: " +:+ err))
  | inl b =>
      '(vc, err) ← jsonUnmarshal b zero_vaultConfig;
      match err with
      | Some err => lift (Err ("invalid vault json token: " +:+ err))
      | None =>
          match blob_NewStorage (VConnectionInfo vc) with
          | inr err => lift (Err ("cannot open vault storage: " +:+ err))
          | inl st =>
              match MasterKey (Key vc) with
              | inr _ => lift (Err "invalid vault token")
              | inl creds =>
                  λ w, Open creds (mkWorld st (entropy w) (trace w))
              end
          end
      end
  end.

End vault.

(** ** The rest of the package: the repository's descriptor, listing, tokens *)

(** What [ListBlocks] sends on its channel: a block's id, or an error. *)
Record BlockMetadata : Type := { BlockID : string; Error : option error }.

(** [blob.Storage.ListBlocks]: the entries the channel delivers before it
    is closed, in order. *)
Class Listing (St : Type) : Type := {
  ListBlocks : string → St → list BlockMetadata;
}.

(** The type assertion to [blob.ConnectionInfoProvider] followed by
    [ConnectionInfo()]: [None] when the store lacks the capability. *)
Class ConnectionInfoProvider (St ConnectionInfo : Type) : Type := {
  provided_ConnectionInfo : St → option ConnectionInfo;
}.

(** [base64.RawURLEncoding.EncodeToString]. *)
Class Base64Encoder : Type := {
  base64_RawURLEncoding_EncodeToString : bytes → string;
}.

(** [repo.NewRepository]. *)
Class RepoEnv (St RepoFormat Repository : Type) : Type := {
  repo_NewRepository : St → RepoFormat → Repository + error;
}.

Section vault_rest.
Context {C : Crypto} {St : Type} {SS : Storage St}.
Context {ConnectionInfo RepoFormat : Type}.
Context {CI : Inhabited ConnectionInfo} {RI : Inhabited RepoFormat}.
Context {JF : Json Format}.
Context {JR : Json (@repositoryConfig ConnectionInfo RepoFormat)}.
Context {JV : Json (@vaultConfig ConnectionInfo)}.

(** [var rc repositoryConfig]: a zero descriptor and a nil format. *)
Definition zero_repositoryConfig : @repositoryConfig ConnectionInfo RepoFormat :=
  {| Connection := inhabitant; RFormat := inhabitant |}.

Definition repoConfig (v : Vault)
  : M St (@repositoryConfig ConnectionInfo RepoFormat) :=
  λ w, match readEncryptedBlock v repositoryConfigBlock w with
       | (Ok b, w') =>
           match jsonUnmarshal b zero_repositoryConfig w' with
           | (Ok (rc, None), w'') => (Ok rc, w'')
           | (Ok (_, Some err), w'') => (Err err, w'')
           | (Err e, w'') => (Err e, w'')
           | (Panic why, w'') => (Panic why, w'')
           end
       | (Err err, w') => (Err ("unable to read repository: " +:+ err), w')
       | (Panic why, w') => (Panic why, w')
       end.

Definition RepositoryFormat (v : Vault) : M St RepoFormat :=
  rc ← repoConfig v;
  mret (RFormat rc).

Definition OpenRepository {Repository : Type} {TE : @TokenEnv St ConnectionInfo}
    {RE : RepoEnv St RepoFormat Repository} (v : Vault) : M St Repository :=
  rc ← repoConfig v;
  match blob_NewStorage (Connection rc) with
  | inr err => lift (Err ("unable to open repository: " +:+ err))
  | inl storage => lift (of_sum (repo_NewRepository storage (RFormat rc)))
  end.

(** The loop of [List] over the entries still to come, [result] being
    the ids appended so far: the ids and the [error] returned. *)
Fixpoint List_range (ch : list BlockMetadata) (result : list string)
  : list string * option error :=
  match ch with
  | [] => (result, None)
  | b :: ch' =>
      match Error b with
      | Some err => (result, Some err)
      | None => List_range ch' (result ++ [BlockID b])
      end
  end.

(** [List(prefix)]: both results, as the Go function returns both. *)
Definition List {LS : Listing St} (prefix : string)
  : M St (list string * option error) :=
  λ w, (Ok (List_range (ListBlocks prefix (storage w)) []), w).

Definition Token {CP : ConnectionInfoProvider St ConnectionInfo}
    {BE : Base64Encoder} (v : Vault) : M St string :=
  λ w, match provided_ConnectionInfo (storage w) with
       | None =>
           (Err "repository does not support persisting configuration"%string, w)
       | Some ci =>
           let vc := {| VConnectionInfo := ci; Key := masterKey v |} in
           match json_Marshal vc with
           | inr err => (Err err, w)
           | inl b => (Ok (base64_RawURLEncoding_EncodeToString b), w)
           end
       end.

End vault_rest.

(** ** Stores *)

(** The error of a [GetBlock] on an absent block. *)
Definition NotFound : error := "block not found".

(** What the vault relies on from its store: a block written is the
    block read back, writing or deleting one block leaves the others,
    and a deleted block is absent. *)
Class StorageLaws (St : Type) {SS : Storage St} : Prop := {
  get_put : ∀ id data s s',
    PutBlock id data s = (None, s') → GetBlock id s' = inl data;
  get_put_ne : ∀ id id' data s s' e,
    id ≠ id' → PutBlock id data s = (e, s') → GetBlock id' s' = GetBlock id' s;
  get_delete : ∀ id s s',
    DeleteBlock id s = (None, s') → GetBlock id s' = inr NotFound;
}.

(** Modelled from the spec: the blob storage collaborator ([blob.Storage]
    is not part of the vault package), "a flat namespace of named binary
    blocks with strong-consistency put/get": [putBlock(id, bytes,
    overwrite) -> ()], [getBlock(id) -> bytes | NotFound],
    [deleteBlock(id) -> ()]. *)
#[global] Instance mapStorage : Storage (gmap string bytes) := {
  PutBlock id data s := (None, <[id := data]> s);
  GetBlock id s := match s !! id with Some b => inl b | None => inr NotFound end;
  DeleteBlock id s := (None, delete id s);
}.

(** A store some of whose blocks cannot be written (a quota, a
    permission, a lost connection): [PutBlock] on them returns an error
    and stores nothing. *)
Record Guarded (St : Type) : Type := mkGuarded {
  inner : St;
  write_denied : list string;
}.
Arguments mkGuarded {St} _ _.
Arguments inner {St} _.
Arguments write_denied {St} _.

#[global] Instance guardedStorage {St : Type} {SS : Storage St} : Storage (Guarded St) := {
  PutBlock id data s :=
    if decide (id ∈ write_denied s) then (Some "write denied"%string, s)
    else let '(e, i) := PutBlock id data (inner s) in
         (e, mkGuarded i (write_denied s));
  GetBlock id s := GetBlock id (inner s);
  DeleteBlock id s :=
    let '(e, i) := DeleteBlock id (inner s) in (e, mkGuarded i (write_denied s));
}.

(** ** Small executable collaborators, for running the model *)

Module Toy.

(** Stand-ins with the right shapes: a block function and a MAC that
    depend on key and input, a key-derivation stream that depends on
    secret, salt and purpose. *)
Definition crypto : Crypto := {|
  aes_encrypt k b := be_of_N 16 (be_to_N k + 3 * be_to_N (vec_to_list b) + 1)%N;
  hmac_sha256 k m := be_of_N 32 (7 * be_to_N k + be_to_N m + Z.to_N (len m))%N;
  hkdf_sha256 secret salt info := secret ++ info ++ salt;
|}.

(** Fields separated by a zero byte. *)
Fixpoint until_zero (l : bytes) : bytes * bytes :=
  match l with
  | [] => ([], [])
  | b :: l' =>
      if decide (b = x00) then ([], l')
      else let '(a, r) := until_zero l' in (b :: a, r)
  end.

Definition json_Format : Json Format := {|
  json_Marshal f := inl (
    String.list_byte_of_string (Version f) ++ x00 ::
    String.list_byte_of_string (Encryption f) ++ x00 ::
    String.list_byte_of_string (Checksum f) ++ x00 :: UniqueID f);
  json_Unmarshal data x :=
    let '(ver, r) := until_zero data in
    let '(enc, r) := until_zero r in
    let '(chk, uid) := until_zero r in
    ({| Version := String.string_of_list_byte ver;
        Encryption := String.string_of_list_byte enc;
        Checksum := String.string_of_list_byte chk;
        UniqueID := uid |}, None);
|}.

(** Connection descriptors and repository formats are byte strings. *)
Definition json_repositoryConfig
  : Json (@repositoryConfig bytes bytes) := {|
  json_Marshal rc := inl (Connection rc ++ x00 :: RFormat rc);
  json_Unmarshal data x :=
    let '(c, f) := until_zero data in
    ({| Connection := c; RFormat := f |}, None);
|}.

(** A decoder of token payloads that accepts braces only, as a JSON
    object must start with one. *)
Definition json_vaultConfig : Json (@vaultConfig bytes) := {|
  json_Marshal vc := inl (x7b :: VConnectionInfo vc ++ x00 :: Key vc);
  json_Unmarshal data x :=
    match data with
    | x7b :: r =>
        let '(c, k) := until_zero r in
        ({| VConnectionInfo := c; Key := k |}, None)
    | [] => (x, Some "unexpected end of JSON input"%string)
    | _ => (x, Some "invalid character looking for beginning of value"%string)
    end;
|}.

(** A decoder for the unpadded URL-safe base64 alphabet: carriage
    returns and newlines are skipped, the offset of the first illegal
    character is reported, and so is a dangling single character. *)
Definition b64_digit (c : ascii) : option N :=
  let n := N_of_ascii c in
  if (65 <=? n)%N && (n <=? 90)%N then Some (n - 65)%N
  else if (97 <=? n)%N && (n <=? 122)%N then Some (n - 71)%N
  else if (48 <=? n)%N && (n <=? 57)%N then Some (n + 4)%N
  else if (n =? 45)%N then Some 62%N
  else if (n =? 95)%N then Some 63%N
  else None.

Fixpoint b64_digits (s : string) (pos : nat) : list (N * nat) + nat :=
  match s with
  | EmptyString => inl []
  | String c s' =>
      if (N_of_ascii c =? 10)%N || (N_of_ascii c =? 13)%N
      then b64_digits s' (S pos)
      else match b64_digit c with
           | None => inr pos
           | Some d =>
               match b64_digits s' (S pos) with
               | inl ds => inl ((d, pos) :: ds)
               | inr e => inr e
               end
           end
  end.

Fixpoint b64_quanta (ds : list (N * nat)) (fuel : nat) : bytes + nat :=
  match fuel with
  | O => inl []
  | S fuel' =>
      match ds with
      | [] => inl []
      | [(_, pos)] => inr pos
      | [(a, _); (b, _)] => inl [byte_of_N (a * 4 + b / 16)]
      | [(a, _); (b, _); (c, _)] =>
          inl [byte_of_N (a * 4 + b / 16); byte_of_N (b * 16 + c / 4)]
      | (a, _) :: (b, _) :: (c, _) :: (d, _) :: ds' =>
          match b64_quanta ds' fuel' with
          | inl r =>
              inl (byte_of_N (a * 4 + b / 16) :: byte_of_N (b * 16 + c / 4)
                   :: byte_of_N (c * 64 + d) :: r)
          | inr e => inr e
          end
      end
  end.

Definition base64_decode (s : string) : bytes + error :=
  match b64_digits s 0 with
  | inr pos => inr ("illegal base64 data at input byte " +:+ pretty pos)
  | inl ds =>
      match b64_quanta ds (S (length ds)) with
      | inl r => inl r
      | inr pos => inr ("illegal base64 data at input byte " +:+ pretty pos)
      end
  end.

(** Tokens name an in-memory store by its (ignored) descriptor; raw keys
    of fewer than 16 bytes are rejected. *)
Definition tokenEnv : @TokenEnv (gmap string bytes) bytes := {|
  base64_RawURLEncoding_DecodeString := base64_decode;
  blob_NewStorage ci := inl ∅;
  MasterKey key :=
    if decide (length key < 16)%nat then inr "master key too short"%string
    else inl {| getMasterKey := λ _, key |};
|}.

(** The encoder for the same alphabet, without padding. *)
Definition b64_char (n : N) : ascii :=
  if (n <? 26)%N then ascii_of_N (n + 65)
  else if (n <? 52)%N then ascii_of_N (n + 71)
  else if (n <? 62)%N then ascii_of_N (n - 4)
  else if (n =? 62)%N then ascii_of_N 45
  else ascii_of_N 95.

Fixpoint base64_encode (b : bytes) : string :=
  match b with
  | [] => EmptyString
  | [x] =>
      let n := Byte.to_N x in
      String (b64_char (n / 4)) (String (b64_char (n mod 4 * 16)) EmptyString)
  | [x; y] =>
      let n := Byte.to_N x in
      let k := Byte.to_N y in
      String (b64_char (n / 4))
        (String (b64_char (n mod 4 * 16 + k / 16))
           (String (b64_char (k mod 16 * 4)) EmptyString))
  | x :: y :: z :: r =>
      let n := Byte.to_N x in
      let k := Byte.to_N y in
      let l := Byte.to_N z in
      String (b64_char (n / 4))
        (String (b64_char (n mod 4 * 16 + k / 16))
           (String (b64_char (k mod 16 * 4 + l / 64))
              (String (b64_char (l mod 64)) (base64_encode r))))
  end.

Definition base64Encoder : Base64Encoder :=
  {| base64_RawURLEncoding_EncodeToString := base64_encode |}.

(** An in-memory store reports the descriptor "mem". *)
Definition provider : ConnectionInfoProvider (gmap string bytes) bytes :=
  {| provided_ConnectionInfo _ := Some (String.list_byte_of_string "mem") |}.

(** Tokens whose descriptor names the store [s]; any non-empty raw key
    is accepted. *)
Definition tokenEnv_on (s : gmap string bytes)
  : @TokenEnv (gmap string bytes) bytes := {|
  base64_RawURLEncoding_DecodeString := base64_decode;
  blob_NewStorage ci := inl s;
  MasterKey key :=
    if decide (key = []) then inr "master key too short"%string
    else inl {| getMasterKey := λ _, key |};
|}.

(** Blocks of the in-memory store in the order of their ids, those with
    the prefix. *)
Definition listing : Listing (gmap string bytes) := {|
  ListBlocks prefix s :=
    (λ kv, {| BlockID := kv.1; Error := None |})
      <$> filter (λ kv, String.prefix prefix kv.1 = true) (map_to_list s);
|}.

(** A repository is the store and the format it was opened with. *)
Definition repoEnv
  : RepoEnv (gmap string bytes) bytes (gmap string bytes * bytes) :=
  {| repo_NewRepository s f := inl (s, f) |}.

End Toy.

(** ** Notions the statements use *)

(** The three AES settings of [newCipher]. *)
Definition aes_enabled (f : Format) : Prop :=
  Encryption f = "aes-128" ∨ Encryption f = "aes-192" ∨ Encryption f = "aes-256".

(** The message of [readEncryptedBlock]'s integrity failure. *)
Definition incorrect_checksum : error :=
  "cannot read encrypted block: incorrect checksum".

(** The reserved items. *)
Definition reserved (itemID : string) : Prop :=
  itemID = formatBlockID ∨ itemID = repositoryConfigBlock
  ∨ itemID = checksumBlockID.

(** The 256 bytes. *)
Definition all_bytes : bytes :=
  Eval vm_compute in omap Byte.of_nat (seq 0 256).

#[global] Program Instance byte_finite : Finite byte := {| enum := all_bytes |}.
Next Obligation. apply (bool_decide_unpack (NoDup all_bytes)). by vm_compute. Qed.
Next Obligation.
  intros x. apply (bool_decide_unpack (x ∈ all_bytes)). by destruct x; vm_compute.
Qed.

(** The in-memory store. *)
Abbreviation Store := (gmap string bytes).

(** The format [Create] writes for aes-128 and hmac-sha-256. *)
Definition format128 (uid : bytes) : Format :=
  {| Version := "1"; Encryption := "aes-128"; Checksum := "hmac-sha-256";
     UniqueID := uid |}.

(** What the vault needs from the JSON codecs to create and reopen an
    aes-128 vault: the format descriptor encodes and decodes back to
    itself, and a repository configuration encodes. *)
Definition json_faithful (JF : Json Format)
    (JR : Json (@repositoryConfig bytes bytes)) : Prop :=
  (∀ uid, ∃ fb, json_Marshal (format128 uid) = inl fb
                ∧ json_Unmarshal fb zeroFormat = (format128 uid, None))
  ∧ ∃ rb, json_Marshal {| Connection := []; RFormat := [] |} = inl rb.

(** "Every [Open] with a master key other than the one of [Create]
    fails", for given primitives and codecs. *)
Definition wrong_key_always_rejected (C : Crypto) (JF : Json Format)
    (JR : Json (@repositoryConfig bytes bytes)) : Prop :=
  ∀ (vaultFormat : Format) (creds creds' : Credentials) (cip repoFormat : bytes)
    (w0 w1 : World Store) (v : Vault),
    aes_enabled vaultFormat → Checksum vaultFormat = "hmac-sha-256" →
    Create vaultFormat creds (Some cip) repoFormat w0 = (Ok v, w1) →
    getMasterKey creds' (UniqueID (format v)) ≠ masterKey v →
    ∃ e w2, Open creds' w1 = (Err e, w2).

(** Inputs the examples run on. *)
Module Example.

Definition v : Vault :=
  {| masterKey := [x01; x02]; format := format128 [x09] |}.

(** A vault without encryption, naming a checksum that does not exist. *)
Definition v_none : Vault :=
  {| masterKey := [x01; x02];
     format := {| Version := "1"; Encryption := "none";
                  Checksum := "hmac-sha-1"; UniqueID := [x09] |} |}.

(** A vault whose format names a cipher the package does not know. *)
Definition v_aes512 : Vault :=
  {| masterKey := [x01; x02];
     format := {| Version := "1"; Encryption := "aes-512";
                  Checksum := "hmac-sha-256"; UniqueID := [x09] |} |}.

Definition hello : bytes := String.list_byte_of_string "hello".

Definition w : World Store := mkWorld ∅ (replicate 16 x05) [].

(** A store holding a block that is too short, and one holding a block
    whose tag is wrong. *)
Definition w_short : World Store :=
  mkWorld {[ "x"%string := replicate 31 x00 ]} [] [].

Definition w_tampered : World Store :=
  mkWorld {[ "x"%string := replicate 51 x00 ]} [] [].

Definition creds (key : bytes) : Credentials := {| getMasterKey := λ _, key |}.

(** A fresh store, and one on which the descriptor cannot be written. *)
Definition w_fresh : World Store := mkWorld ∅ (replicate 576 x07) [].

Definition w_denied : World (Guarded Store) :=
  mkWorld (mkGuarded ∅ [formatBlockID]) (replicate 576 x07) [].

(** The vault [Create] makes on the fresh store for the raw key 01,
    and the world it leaves. *)
Definition v_created : Vault :=
  {| masterKey := [x01]; format := format128 (replicate 32 x07) |}.

Definition w_created : World Store :=
  (Create (C := Toy.crypto) (JF := Toy.json_Format)
     (JR := Toy.json_repositoryConfig)
     (format128 []) (creds [x01]) (Some []) [] w_fresh).2.

(** The descriptor [Create] encodes from those random bytes. *)
Definition format_bytes : bytes :=
  match json_Marshal (Json := Toy.json_Format) (format128 (replicate 32 x07)) with
  | inl fb => fb
  | inr _ => []
  end.

(** An AES vault whose format names a checksum the package does not
    know. *)
Definition v_sha1 : Vault :=
  {| masterKey := [x01; x02];
     format := {| Version := "1"; Encryption := "aes-128";
                  Checksum := "hmac-sha-1"; UniqueID := [x09] |} |}.

(** A world whose random source delivers two different IVs. *)
Definition w32 : World Store :=
  mkWorld ∅ (replicate 16 x05 ++ replicate 16 x06) [].

(** The world after "hello" was put under "x", and the block stored. *)
Definition w_put : World Store := (Put (C := Toy.crypto) v "x" hello w).2.

Definition stored_x : bytes := default [] (storage w_put !! "x"%string).

(** Formats a caller may hand to [Create]: one naming an unknown cipher,
    one without encryption. *)
Definition format512 : Format :=
  {| Version := "7"; Encryption := "aes-512"; Checksum := "hmac-sha-256";
     UniqueID := [x01] |}.

Definition format_none : Format :=
  {| Version := "7"; Encryption := "none"; Checksum := "hmac-sha-256";
     UniqueID := [x01] |}.

(** The vault [Create] makes without encryption, and the world it
    leaves. *)
Definition v_plain : Vault :=
  {| masterKey := [x01];
     format := {| Version := "1"; Encryption := "none";
                  Checksum := "hmac-sha-256"; UniqueID := replicate 32 x07 |} |}.

Definition w_plain : World Store :=
  (Create (C := Toy.crypto) (JF := Toy.json_Format)
     (JR := Toy.json_repositoryConfig)
     format_none (creds [x01]) (Some []) [] w_fresh).2.

(** The payload of the token of [v_created] on the in-memory store. *)
Definition token_bytes : bytes :=
  x7b :: String.list_byte_of_string "mem" ++ [x00; x01].

End Example.

(** * Properties *)

(** ** Bytes, slices and buffers *)

Lemma xorb_cancel_r (a b : bool) : xorb (xorb a b) b = a.
Proof. by destruct a, b. Qed.

Lemma byte_xor_cancel (a b : byte) : byte_xor (byte_xor a b) b = a.
Proof.
  unfold byte_xor. rewrite Byte.to_bits_of_bits.
  rewrite <- (Byte.of_bits_to_bits a) at 2. f_equal.
  destruct (Byte.to_bits a) as (a0&a1&a2&a3&a4&a5&a6&a7).
  destruct (Byte.to_bits b) as (b0&b1&b2&b3&b4&b5&b6&b7).
  simpl. by rewrite !xorb_cancel_r.
Qed.

Lemma to_bits_inj (a b : byte) : Byte.to_bits a = Byte.to_bits b → a = b.
Proof.
  intros E. rewrite <- (Byte.of_bits_to_bits a), <- (Byte.of_bits_to_bits b).
  by rewrite E.
Qed.

Lemma byte_xor_zero (a b : byte) : byte_xor a b = x00 ↔ a = b.
Proof.
  split.
  - intros E. apply (f_equal Byte.to_bits) in E. unfold byte_xor in E.
    rewrite Byte.to_bits_of_bits in E. apply to_bits_inj.
    destruct (Byte.to_bits a) as (a0&a1&a2&a3&a4&a5&a6&a7).
    destruct (Byte.to_bits b) as (b0&b1&b2&b3&b4&b5&b6&b7).
    simpl in E. injection E as E0 E1 E2 E3 E4 E5 E6 E7.
    apply xorb_eq in E0, E1, E2, E3, E4, E5, E6, E7. by subst.
  - intros ->. unfold byte_xor.
    rewrite <- (Byte.of_bits_to_bits x00). f_equal.
    destruct (Byte.to_bits b) as (b0&b1&b2&b3&b4&b5&b6&b7).
    simpl. by rewrite !xorb_nilpotent.
Qed.

Lemma byte_or_zero (a b : byte) : byte_or a b = x00 ↔ a = x00 ∧ b = x00.
Proof.
  split.
  - intros E. apply (f_equal Byte.to_bits) in E. unfold byte_or in E.
    rewrite Byte.to_bits_of_bits in E.
    split; apply to_bits_inj;
      destruct (Byte.to_bits a) as (a0&a1&a2&a3&a4&a5&a6&a7);
      destruct (Byte.to_bits b) as (b0&b1&b2&b3&b4&b5&b6&b7);
      simpl in E; injection E as E0 E1 E2 E3 E4 E5 E6 E7;
      apply orb_false_elim in E0, E1, E2, E3, E4, E5, E6, E7;
      destruct E0, E1, E2, E3, E4, E5, E6, E7; by subst.
  - by intros [-> ->].
Qed.

Lemma compare_fold_zero (l : list (byte * byte)) (v : byte) :
  foldl (λ v ab, byte_or v (byte_xor ab.1 ab.2)) v l = x00
  ↔ v = x00 ∧ Forall (λ ab, ab.1 = ab.2) l.
Proof.
  revert v. induction l as [|[a b] l IH]; intros v; simpl.
  - split; [by intros -> | by intros [-> _]].
  - rewrite IH, byte_or_zero, byte_xor_zero, Forall_cons. simpl. tauto.
Qed.

Lemma zip_diag_eq {A} (x y : list A) :
  length x = length y → Forall (λ ab, ab.1 = ab.2) (zip x y) → x = y.
Proof.
  revert y. induction x as [|a x IH]; intros [|b y]; simpl; try done.
  intros [= L] [E F]%Forall_cons. simpl in E. subst. f_equal. by apply IH.
Qed.

Lemma zip_diag_refl {A} (x : list A) : Forall (λ ab, ab.1 = ab.2) (zip x x).
Proof. induction x; simpl; by constructor. Qed.

Lemma ConstantTimeCompare_spec (x y : bytes) :
  ConstantTimeCompare x y = 1 ↔ x = y.
Proof.
  unfold ConstantTimeCompare, ConstantTimeByteEq. split.
  - intros E. destruct (decide (length x = length y)) as [L|]; [|done].
    destruct (decide _) as [Z|]; [|done].
    apply compare_fold_zero in Z as [_ Z]. by apply zip_diag_eq.
  - intros ->. rewrite decide_True by done.
    rewrite decide_True; [done|].
    apply compare_fold_zero. split; [done | apply zip_diag_refl].
Qed.

Lemma hmac_Equal_true (a b : bytes) : hmac_Equal a b = true ↔ a = b.
Proof.
  unfold hmac_Equal. rewrite bool_decide_eq_true. apply ConstantTimeCompare_spec.
Qed.

Lemma hmac_Equal_false (a b : bytes) : hmac_Equal a b = false ↔ a ≠ b.
Proof.
  rewrite <- not_true_iff_false, hmac_Equal_true. done.
Qed.

Lemma xor_bytes_length (a b : bytes) :
  length b = length a → length (xor_bytes a b) = length a.
Proof. intros E. unfold xor_bytes. rewrite length_zip_with. lia. Qed.

Lemma xor_bytes_cancel (a b : bytes) :
  length b = length a → xor_bytes (xor_bytes a b) b = a.
Proof.
  unfold xor_bytes. revert b. induction a as [|x a IH]; intros [|y b]; simpl; try done.
  intros [= E]. by rewrite byte_xor_cancel, IH.
Qed.

Lemma len_app (a b : bytes) : len (a ++ b) = len a + len b.
Proof. unfold len. rewrite length_app. lia. Qed.

Lemma len_nonneg (a : bytes) : 0 ≤ len a.
Proof. unfold len. lia. Qed.

Lemma make_Ok (n : nat) : make (Z.of_nat n) = Ok (replicate n x00).
Proof. unfold make. rewrite decide_True by lia. by rewrite Nat2Z.id. Qed.

Lemma make_Panic (n : Z) : n < 0 → ∃ why, make n = Panic why.
Proof. intros. unfold make. rewrite decide_False by lia. eauto. Qed.

Lemma slice_Ok (s : bytes) (lo hi : nat) :
  (lo ≤ hi ≤ length s)%nat →
  slice s (Z.of_nat lo) (Z.of_nat hi) = Ok (take (hi - lo)%nat (drop lo s)).
Proof.
  intros. unfold slice, len. rewrite decide_True by lia.
  rewrite Nat2Z.id. by replace (Z.to_nat (Z.of_nat hi - Z.of_nat lo)) with (hi - lo)%nat by lia.
Qed.

Lemma slice_Panic_neg (s : bytes) (lo hi : Z) :
  hi < 0 → ∃ why, slice s lo hi = Panic why.
Proof. intros. unfold slice. rewrite decide_False by lia. eauto. Qed.

Lemma write_at_0_all (buf data : bytes) :
  length data = length buf → write_at buf 0 data = data.
Proof.
  intros E. unfold write_at. simpl. rewrite Nat.sub_0_r, <- E, firstn_all.
  rewrite drop_ge by lia. by rewrite app_nil_r.
Qed.

Lemma write_at_app (a b c data : bytes) :
  length data = length b →
  write_at (a ++ b ++ c) (length a) data = a ++ data ++ c.
Proof.
  intros E. unfold write_at.
  rewrite take_app_length. f_equal.
  rewrite !length_app, <- E.
  rewrite take_ge by lia. f_equal.
  rewrite drop_app_add', drop_app_length'; done.
Qed.

(** ** The primitives: sizes *)

Section crypto_facts.
Context {C : Crypto}.

Lemma Sum_length (h : Hash) (data : bytes) : length (Sum h data) = 32%nat.
Proof. unfold Sum. apply length_vec_to_list. Qed.

Lemma ctr_blocks_length (blk : Block) (ctr : N) (n : nat) :
  length (ctr_blocks blk ctr n) = (16 * n)%nat.
Proof.
  revert ctr. induction n as [|n IH]; intros ctr; simpl; [done|].
  rewrite length_app, length_vec_to_list, IH. lia.
Qed.

Lemma keystream_length (blk : Block) (iv : bytes) (n : nat) :
  length (keystream blk iv n) = n.
Proof.
  unfold keystream. rewrite length_take, ctr_blocks_length.
  assert (n ≤ 16 * ((n + 15) / 16))%nat; [|lia].
  pose proof (Nat.div_mod_eq (n + 15) 16).
  pose proof (Nat.mod_upper_bound (n + 15) 16). lia.
Qed.

Lemma hkdf_ReadFull_length (secret salt info : bytes) (n : nat) :
  length (hkdf_ReadFull secret salt info n).1 = n.
Proof.
  unfold hkdf_ReadFull. simpl.
  rewrite length_app, length_replicate, length_take. lia.
Qed.
End crypto_facts.

(** ** Windows of a buffer built by concatenation *)

Lemma slice_app_l (a b : bytes) (n : Z) :
  n = len a → slice (a ++ b) 0 n = Ok a.
Proof.
  intros ->. unfold len. rewrite (slice_Ok _ 0 (length a)).
  - by rewrite Nat.sub_0_r, drop_0, take_app_length.
  - rewrite length_app. lia.
Qed.

Lemma slice_app_r (a b : bytes) (lo hi : Z) :
  lo = len a → hi = len (a ++ b) → slice (a ++ b) lo hi = Ok b.
Proof.
  intros -> ->. unfold len. rewrite slice_Ok.
  - rewrite drop_app_length, length_app.
    by replace (length a + length b - length a)%nat with (length b) by lia; rewrite firstn_all.
  - rewrite length_app. lia.
Qed.

Lemma write_at_prefix (a c data : bytes) :
  length data = length a → write_at (a ++ c) 0 data = data ++ c.
Proof. intros E. apply (write_at_app [] a c data E). Qed.

Lemma write_at_suffix (a b data : bytes) (off : nat) :
  off = length a → length data = length b → write_at (a ++ b) off data = a ++ data.
Proof.
  intros -> E. pose proof (write_at_app a b [] data E) as W.
  by rewrite !app_nil_r in W.
Qed.

(** ** The codec inside [Put] and [readEncryptedBlock] *)

Section vault_facts.
Context {C : Crypto} {St : Type} {SS : Storage St}.

Lemma aes_NewCipher_Ok (k : bytes) :
  (length k = 16 ∨ length k = 24 ∨ length k = 32)%nat →
  aes_NewCipher k = inl {| blk_key := k |}.
Proof. intros. unfold aes_NewCipher. by rewrite decide_True. Qed.

Lemma newCipher_aes (v : Vault) :
  aes_enabled (format v) → ∃ blk, newCipher v = Ok (Some blk).
Proof.
  intros [E|[E|E]]; unfold newCipher, deriveKey; rewrite E;
    repeat (case_decide; try done);
    rewrite aes_NewCipher_Ok by (rewrite hkdf_ReadFull_length; auto);
    simpl; eauto.
Qed.

Lemma newCipher_none (v : Vault) :
  Encryption (format v) = "none" → newCipher v = Ok None.
Proof. intros E. unfold newCipher. by rewrite decide_True. Qed.

Lemma newChecksum_hmac (v : Vault) :
  Checksum (format v) = "hmac-sha-256" →
  newChecksum v = Ok {| mac_key := (deriveKey v purposeChecksumSecret 32).1 |}.
Proof. intros E. unfold newChecksum. by rewrite decide_True. Qed.

Lemma Put_encrypted (v : Vault) (blk : Block) (hash : Hash)
    (itemID : string) (content : bytes) (w : World St) :
  newCipher v = Ok (Some blk) → newChecksum v = Ok hash →
  (16 ≤ length (entropy w))%nat →
  let iv := take 16 (entropy w) in
  let ct := xor_bytes content (keystream blk iv (length content)) in
  Put v itemID content w =
    storage_PutBlock itemID (iv ++ ct ++ Sum hash (iv ++ ct))
      (log (EvXORKeyStream iv content)
         (mkWorld (storage w) (drop 16 (entropy w)) (trace w ++ [EvRandRead 16]))).
Proof.
  intros Hc Hh He iv ct.
  unfold Put, mbind, M_mbind, M_bind, lift. rewrite Hc, Hh.
  unfold BlockSize, Size.
  replace (16 + len content + 32) with (Z.of_nat (16 + (length content + 32))) by (unfold len; lia).
  rewrite make_Ok, !replicate_add.
  rewrite slice_app_l by (unfold len; by rewrite length_replicate).
  rewrite length_replicate. unfold rand_ReadFull at 1. rewrite decide_True by done.
  fold iv.
  assert (length iv = 16%nat) as Liv by (unfold iv; rewrite length_take; lia).
  unfold cipher_NewCTR, BlockSize. rewrite decide_True by (unfold len; lia).
  rewrite write_at_prefix by (by rewrite length_replicate).
  rewrite slice_app_r by (unfold len; lia || done).
  unfold XORKeyStream at 1. cbn [ctr_blk ctr_iv].
  rewrite decide_False by (rewrite length_app, length_replicate; lia).
  fold ct.
  assert (length ct = length content) as Lct
    by (unfold ct; apply xor_bytes_length, keystream_length).
  rewrite write_at_prefix by (by rewrite length_replicate).
  rewrite write_at_suffix
    by (rewrite ?length_app, ?length_replicate; lia).
  rewrite (app_assoc iv ct).
  rewrite slice_app_l by (rewrite len_app; unfold len; lia).
  rewrite write_at_suffix
    by (rewrite ?length_app, ?length_replicate, ?Sum_length; unfold len; lia).
  by rewrite <- app_assoc.
Qed.

Lemma read_sealed (v : Vault) (blk : Block) (hash : Hash) (itemID : string)
    (iv ct tag : bytes) (w : World St) :
  newCipher v = Ok (Some blk) → newChecksum v = Ok hash →
  GetBlock itemID (storage w) = inl (iv ++ ct ++ tag) →
  length iv = 16%nat → tag = Sum hash (iv ++ ct) →
  readEncryptedBlock v itemID w =
    (Ok (xor_bytes ct (keystream blk iv (length ct))),
     log (EvXORKeyStream iv ct) (log (EvGetBlock itemID) w)).
Proof.
  intros Hc Hh Hg Liv Ht.
  assert (length tag = 32%nat) as Ltag by (subst tag; apply Sum_length).
  unfold readEncryptedBlock, mbind, M_mbind, M_bind, lift, storage_GetBlock.
  rewrite Hg, Hc, Hh. cbn [of_sum]. unfold BlockSize, Size.
  rewrite (app_assoc iv ct tag).
  rewrite slice_app_l by (rewrite !len_app; unfold len; lia).
  rewrite slice_app_r by (rewrite ?len_app; unfold len; lia).
  rewrite <- Ht. rewrite (proj2 (hmac_Equal_true tag tag) eq_refl). cbn [negb].
  replace (len ((iv ++ ct) ++ tag) - 16 - 32) with (Z.of_nat (length ct))
    by (rewrite !len_app; unfold len; lia).
  rewrite make_Ok. rewrite <- (app_assoc iv ct tag).
  rewrite slice_app_l by (unfold len; lia).
  unfold cipher_NewCTR, BlockSize. rewrite decide_True by (unfold len; lia).
  replace (slice (iv ++ ct ++ tag) 16 (len (iv ++ ct ++ tag) - 32))
    with (Ok (A:=bytes) ct).
  2:{ symmetry. unfold len. rewrite !length_app.
      replace (Z.of_nat (length iv + (length ct + length tag)) - 32)
        with (Z.of_nat (length iv + length ct)) by lia.
      rewrite (slice_Ok _ 16) by (rewrite !length_app; lia).
      rewrite <- Liv, drop_app_length.
      replace (length iv + length ct - length iv)%nat with (length ct) by lia.
      by rewrite take_app_length. }
  unfold XORKeyStream. cbn [ctr_blk ctr_iv].
  rewrite decide_False by (rewrite length_replicate; lia).
  rewrite write_at_0_all; [done|].
  rewrite length_replicate. apply xor_bytes_length, keystream_length.
Qed.

(** What [readEncryptedBlock] does with a stored block when encryption
    is on, by the block's length and its trailing 32 bytes. *)
Lemma read_short (v : Vault) (blk : Block) (hash : Hash) (itemID : string)
    (content : bytes) (w : World St) :
  newCipher v = Ok (Some blk) → newChecksum v = Ok hash →
  GetBlock itemID (storage w) = inl content →
  (length content < 32)%nat →
  readEncryptedBlock v itemID w =
    (Panic "slice bounds out of range", log (EvGetBlock itemID) w).
Proof.
  intros Hc Hh Hg Hl.
  unfold readEncryptedBlock, mbind, M_mbind, M_bind, lift, storage_GetBlock.
  rewrite Hg, Hc, Hh. cbn [of_sum]. unfold Size.
  unfold slice at 1. by rewrite decide_False by (unfold len; lia).
Qed.

Lemma read_mismatch (v : Vault) (blk : Block) (hash : Hash) (itemID : string)
    (content : bytes) (w : World St) :
  newCipher v = Ok (Some blk) → newChecksum v = Ok hash →
  GetBlock itemID (storage w) = inl content →
  (32 ≤ length content)%nat →
  Sum hash (take (length content - 32) content)
    ≠ drop (length content - 32) content →
  readEncryptedBlock v itemID w =
    (Err incorrect_checksum, log (EvGetBlock itemID) w).
Proof.
  intros Hc Hh Hg Hl Hne.
  rewrite <- (take_drop (length content - 32) content) in Hg.
  unfold readEncryptedBlock, mbind, M_mbind, M_bind, lift, storage_GetBlock.
  rewrite Hg, Hc, Hh. cbn [of_sum]. unfold Size.
  rewrite slice_app_l
    by (rewrite len_app; unfold len; rewrite length_take, length_drop; lia).
  rewrite slice_app_r
    by (rewrite ?len_app; unfold len; rewrite ?length_take, ?length_drop; lia).
  by rewrite (proj2 (hmac_Equal_false _ _) Hne).
Qed.

Lemma read_truncated (v : Vault) (blk : Block) (hash : Hash) (itemID : string)
    (content : bytes) (w : World St) :
  newCipher v = Ok (Some blk) → newChecksum v = Ok hash →
  GetBlock itemID (storage w) = inl content →
  (32 ≤ length content < 48)%nat →
  Sum hash (take (length content - 32) content)
    = drop (length content - 32) content →
  readEncryptedBlock v itemID w =
    (Panic "makeslice: len out of range", log (EvGetBlock itemID) w).
Proof.
  intros Hc Hh Hg Hl Heq.
  assert (len content = Z.of_nat (length content)) as Hlen by done.
  rewrite <- (take_drop (length content - 32) content) in Hg.
  unfold readEncryptedBlock, mbind, M_mbind, M_bind, lift, storage_GetBlock.
  rewrite Hg, Hc, Hh. cbn [of_sum]. unfold Size, BlockSize.
  rewrite slice_app_l
    by (rewrite len_app; unfold len; rewrite length_take, length_drop; lia).
  rewrite slice_app_r
    by (rewrite ?len_app; unfold len; rewrite ?length_take, ?length_drop; lia).
  rewrite (proj2 (hmac_Equal_true _ _) Heq). cbn [negb].
  unfold make. rewrite decide_False; [done|].
  rewrite take_drop. lia.
Qed.

Lemma read_verified (v : Vault) (blk : Block) (hash : Hash) (itemID : string)
    (content : bytes) (w : World St) :
  newCipher v = Ok (Some blk) → newChecksum v = Ok hash →
  GetBlock itemID (storage w) = inl content →
  (48 ≤ length content)%nat →
  Sum hash (take (length content - 32) content)
    = drop (length content - 32) content →
  let iv := take 16 content in
  let ct := take (length content - 48) (drop 16 content) in
  readEncryptedBlock v itemID w =
    (Ok (xor_bytes ct (keystream blk iv (length ct))),
     log (EvXORKeyStream iv ct) (log (EvGetBlock itemID) w)).
Proof.
  intros Hc Hh Hg Hl Heq iv ct.
  assert (take (length content - 32) content = iv ++ ct) as Hbody.
  { unfold iv, ct. rewrite <- (take_drop 16 (take _ content)).
    rewrite take_take, Nat.min_l by lia. f_equal.
    rewrite take_drop_commute. do 2 f_equal. lia. }
  apply (read_sealed v blk hash itemID iv ct (drop (length content - 32) content));
    try done.
  - by rewrite app_assoc, <- Hbody, take_drop.
  - unfold iv. rewrite length_take. lia.
  - by rewrite <- Hbody.
Qed.

Lemma Put_encrypted_starved (v : Vault) (blk : Block) (hash : Hash)
    (itemID : string) (content : bytes) (w : World St) :
  newCipher v = Ok (Some blk) → newChecksum v = Ok hash →
  (length (entropy w) < 16)%nat →
  Put v itemID content w =
    (Err "unexpected EOF"%string,
     mkWorld (storage w) [] (trace w ++ [EvRandRead 16])).
Proof.
  intros Hc Hh He.
  unfold Put, mbind, M_mbind, M_bind, lift. rewrite Hc, Hh.
  unfold BlockSize, Size.
  replace (16 + len content + 32) with (Z.of_nat (16 + (length content + 32)))
    by (unfold len; lia).
  rewrite make_Ok, !replicate_add.
  rewrite slice_app_l by (unfold len; by rewrite length_replicate).
  rewrite length_replicate. unfold rand_ReadFull at 1.
  by rewrite decide_False by lia.
Qed.

Lemma Put_none (v : Vault) (itemID : string) (content : bytes) (w : World St) :
  Encryption (format v) = "none" →
  Put v itemID content w = storage_PutBlock itemID content w.
Proof.
  intros E. unfold Put, mbind, M_mbind, M_bind, lift.
  by rewrite (newCipher_none v E).
Qed.

Lemma read_none (v : Vault) (itemID : string) (w : World St) :
  Encryption (format v) = "none" →
  readEncryptedBlock v itemID w =
    (of_sum (GetBlock itemID (storage w)), log (EvGetBlock itemID) w).
Proof.
  intros E.
  unfold readEncryptedBlock, mbind, M_mbind, M_bind, lift, storage_GetBlock.
  rewrite (newCipher_none v E). by destruct (GetBlock itemID (storage w)).
Qed.

Lemma read_storage_error (v : Vault) (itemID : string) (e : error) (w : World St) :
  GetBlock itemID (storage w) = inr e →
  readEncryptedBlock v itemID w = (Err e, log (EvGetBlock itemID) w).
Proof.
  intros E.
  unfold readEncryptedBlock, mbind, M_mbind, M_bind, lift, storage_GetBlock.
  by rewrite E.
Qed.

Lemma storage_PutBlock_Ok (itemID : string) (data : bytes) (w w' : World St) :
  storage_PutBlock itemID data w = (Ok (), w') →
  PutBlock itemID data (storage w) = (None, storage w')
  ∧ entropy w' = entropy w ∧ trace w' = trace w ++ [EvPutBlock itemID data].
Proof.
  unfold storage_PutBlock. destruct (PutBlock _ _ _) as [[e|] s']; [done|].
  by intros [= <-].
Qed.

(** ** Round trip *)

(** C1.  For every payload [p] and every supported pair (encryption
    none, aes-128, aes-192 or aes-256, checksum hmac-sha-256): once [Put]
    has stored [p] under an item, [readEncryptedBlock] by the same vault
    (same format, master key and unique id) on that item returns exactly
    [p]. *)
Theorem Put_readEncryptedBlock_roundtrip {SL : StorageLaws St}
    (v : Vault) (itemID : string) (p : bytes) (w w' : World St) :
  Encryption (format v) = "none" ∨ aes_enabled (format v) →
  Checksum (format v) = "hmac-sha-256" →
  Put v itemID p w = (Ok (), w') →
  (readEncryptedBlock v itemID w').1 = Ok p.
Proof.
  intros [Hn|Ha] Hk HP.
  - rewrite (Put_none v _ _ _ Hn) in HP.
    apply storage_PutBlock_Ok in HP as (HP & _ & _).
    rewrite (read_none v _ _ Hn). by rewrite (get_put _ _ _ _ HP).
  - destruct (newCipher_aes v Ha) as [blk Hc].
    pose proof (newChecksum_hmac v Hk) as Hh.
    destruct (decide (16 ≤ length (entropy w))%nat) as [He|He].
    + rewrite (Put_encrypted v blk _ _ _ _ Hc Hh He) in HP.
      apply storage_PutBlock_Ok in HP as (HP & _ & _).
      apply get_put in HP. cbn [storage log] in HP.
      erewrite read_sealed; [|done|done|exact HP|..]; [|by rewrite length_take; lia|done].
      cbn [fst]. f_equal.
      rewrite xor_bytes_length by apply keystream_length.
      apply xor_bytes_cancel, keystream_length.
    + by rewrite (Put_encrypted_starved v blk _ _ _ _ Hc Hh) in HP by lia.
Qed.

(** ** Layout of an encrypted block *)

(** C3.  With AES encryption and hmac-sha-256, the block [Put] hands to
    the store is [IV ++ ciphertext ++ tag]: the IV is one cipher block
    (16 bytes, the next 16 random bytes), the ciphertext is the CTR key
    stream xored onto the payload and has the payload's length, the tag
    has the MAC's size (32 bytes) and is the HMAC of [IV ++ ciphertext],
    not of the payload and not of itself. *)
Theorem Put_blob_layout (v : Vault) (itemID : string) (p : bytes) (w : World St) :
  aes_enabled (format v) → Checksum (format v) = "hmac-sha-256" →
  (16 ≤ length (entropy w))%nat →
  ∃ blk hash iv ct tag,
    newCipher v = Ok (Some blk) ∧ newChecksum v = Ok hash
    ∧ Put v itemID p w =
        storage_PutBlock itemID (iv ++ ct ++ tag)
          (mkWorld (storage w) (drop 16 (entropy w))
             (trace w ++ [EvRandRead 16; EvXORKeyStream iv p]))
    ∧ iv = take 16 (entropy w) ∧ len iv = BlockSize blk ∧ len iv = 16
    ∧ ct = xor_bytes p (keystream blk iv (length p)) ∧ len ct = len p
    ∧ tag = vec_to_list (hmac_sha256 (mac_key hash) (iv ++ ct))
    ∧ len tag = Size hash ∧ len tag = 32.
Proof.
  intros Ha Hk He.
  destruct (newCipher_aes v Ha) as [blk Hc].
  pose proof (newChecksum_hmac v Hk) as Hh.
  eexists blk, _, (take 16 (entropy w)), _, _.
  split; [done|]. split; [done|].
  split; [|split; [done|]].
  { rewrite (Put_encrypted v blk _ _ _ _ Hc Hh He).
    unfold log. cbn [storage entropy trace]. by rewrite <- app_assoc. }
  assert (len (take 16 (entropy w)) = 16) as Liv
    by (unfold len; rewrite length_take; lia).
  repeat split; try done.
  - unfold len. by rewrite xor_bytes_length by apply keystream_length.
  - unfold len, Size. by rewrite Sum_length.
  - unfold len. by rewrite Sum_length.
Qed.

(** ** Verify, then decrypt *)

(** C2.  With encryption on, for every stored block:
    [readEncryptedBlock] recomputes the MAC over everything but the last
    32 bytes and compares it with those bytes by [hmac.Equal]; when the
    comparison fails the call returns the "incorrect checksum" error
    having made no call to the cipher, and every run that does call
    [XORKeyStream] has passed the comparison. *)
Theorem readEncryptedBlock_verifies_first
    (v : Vault) (itemID : string) (content : bytes) (w : World St) :
  aes_enabled (format v) → Checksum (format v) = "hmac-sha-256" →
  GetBlock itemID (storage w) = inl content →
  ∃ hash evs,
    newChecksum v = Ok hash
    ∧ trace (readEncryptedBlock v itemID w).2 = trace w ++ evs
    ∧ ((32 ≤ length content)%nat →
       hmac_Equal (Sum hash (take (length content - 32) content))
         (drop (length content - 32) content) = false →
       readEncryptedBlock v itemID w
         = (Err incorrect_checksum, log (EvGetBlock itemID) w)
       ∧ evs = [EvGetBlock itemID])
    ∧ (∀ iv src, EvXORKeyStream iv src ∈ evs →
       (32 ≤ length content)%nat
       ∧ hmac_Equal (Sum hash (take (length content - 32) content))
           (drop (length content - 32) content) = true).
Proof.
  intros Ha Hk Hg.
  destruct (newCipher_aes v Ha) as [blk Hc].
  pose proof (newChecksum_hmac v Hk) as Hh.
  eexists _. destruct (decide (length content < 32)%nat) as [Hs|Hs].
  { exists [EvGetBlock itemID].
    rewrite (read_short v blk _ _ _ _ Hc Hh Hg Hs).
    split; [done|]. split; [done|]. split; [lia|].
    intros iv src [=]%list_elem_of_singleton. }
  destruct (hmac_Equal _ (drop (length content - 32) content)) eqn:Heq.
  - apply hmac_Equal_true in Heq.
    destruct (decide (length content < 48)%nat) as [Ht|Ht].
    + exists [EvGetBlock itemID].
      rewrite (read_truncated v blk _ _ _ _ Hc Hh Hg) by (done || lia).
      split; [done|]. split; [done|]. split; [done|].
      intros iv src [=]%list_elem_of_singleton.
    + eexists [EvGetBlock itemID; _].
      rewrite (read_verified v blk _ _ _ _ Hc Hh Hg) by (done || lia).
      split; [done|]. split; [|split; [done|]].
      * unfold log. cbn [snd trace]. by rewrite <- app_assoc.
      * intros _ _ _. split; [lia|done].
  - apply hmac_Equal_false in Heq. exists [EvGetBlock itemID].
    rewrite (read_mismatch v blk _ _ _ _ Hc Hh Hg) by (done || lia).
    split; [done|]. split; [done|]. split; [done|].
    intros iv src [=]%list_elem_of_singleton.
Qed.

(** ** Encryption "none" *)

(** C5.  When the format's encryption is "none", whatever checksum it
    names: [Put] hands the payload itself to the store, reads no random
    bytes and computes no MAC (its only call is the [PutBlock] of the
    payload), and [readEncryptedBlock] and [Get] return the stored bytes
    as they are. *)
Theorem encryption_none_is_identity
    (v : Vault) (itemID : string) (p : bytes) (w : World St) :
  Encryption (format v) = "none" →
  Put v itemID p w = storage_PutBlock itemID p w
  ∧ entropy (Put v itemID p w).2 = entropy w
  ∧ trace (Put v itemID p w).2 = trace w ++ [EvPutBlock itemID p]
  ∧ readEncryptedBlock v itemID w
      = (of_sum (GetBlock itemID (storage w)), log (EvGetBlock itemID) w)
  ∧ Get v itemID w = readEncryptedBlock v itemID w.
Proof.
  intros Hn. rewrite (Put_none v _ _ _ Hn).
  split; [done|].
  split; [unfold storage_PutBlock;
          by destruct (PutBlock itemID p (storage w)) as [[e|] s']|].
  split; [unfold storage_PutBlock;
          by destruct (PutBlock itemID p (storage w)) as [[e|] s']|].
  split; [by apply read_none | done].
Qed.

(** ** The structured read helper *)

(** The calls [readEncryptedBlock] makes: to the store and to the
    cipher, never to the JSON decoder. *)
Lemma readEncryptedBlock_trace (v : Vault) (itemID : string) (w : World St) :
  ∃ evs, trace (readEncryptedBlock v itemID w).2 = trace w ++ evs
         ∧ Forall (λ ev, ∀ d, ev ≠ EvUnmarshal d) evs.
Proof.
  unfold readEncryptedBlock, mbind, M_mbind, M_bind, lift, storage_GetBlock,
    XORKeyStream, mret, M_mret, M_ret.
  repeat case_match; cbn [snd trace log];
    first [ exists [EvGetBlock itemID]; split; [done | by repeat constructor]
          | eexists [EvGetBlock itemID; _]; split;
            [by rewrite <- app_assoc | by repeat constructor] ].
Qed.

(** C6.  Whenever the decrypted read inside [getJSON] returns an error
    (a storage error, an unsupported algorithm, a failed integrity
    check), [getJSON] returns the nil error, the value behind [content]
    is what it was before the call (the zero value, when the caller passed
    one), and [json.Unmarshal] has not been called: the world is the one
    the failed read left, and the calls made since [getJSON] started
    include no [json.Unmarshal]. *)
Theorem getJSON_swallows_read_errors {T : Type} {JT : Json T}
    (v : Vault) (itemID : string) (content : T) (w w' : World St) (e : error) :
  readEncryptedBlock v itemID w = (Err e, w') →
  getJSON v itemID content w = (Ok (content, None), w')
  ∧ ∃ evs, trace (getJSON v itemID content w).2 = trace w ++ evs
           ∧ Forall (λ ev, ∀ d, ev ≠ EvUnmarshal d) evs.
Proof.
  intros E. pose proof (readEncryptedBlock_trace v itemID w) as Ht.
  unfold getJSON. by rewrite E in Ht |- *.
Qed.

(** ** Reserved items *)

(** C9.  [Remove] of "format", "checksum" or "repo" returns the error
    "item cannot be deleted: " followed by the item's name and leaves the
    world as it was (no [DeleteBlock] call); for any other item it is the
    store's [DeleteBlock], and after a successful one [Get] on that item
    fails with the store's not-found error. *)
Theorem Remove_protects_reserved_items {SL : StorageLaws St}
    (v : Vault) (itemID : string) (w : World St) :
  (reserved itemID →
     Remove v itemID w = (Err ("item cannot be deleted: " +:+ itemID), w))
  ∧ (¬ reserved itemID →
     Remove v itemID w = storage_DeleteBlock itemID w
     ∧ trace (Remove v itemID w).2 = trace w ++ [EvDeleteBlock itemID]
     ∧ ∀ w', Remove v itemID w = (Ok (), w') →
         (Get v itemID w').1 = Err NotFound).
Proof.
  unfold Remove, reserved. split; intros Hr.
  - by rewrite decide_True.
  - rewrite decide_False by done. split; [done|].
    unfold storage_DeleteBlock.
    destruct (DeleteBlock itemID (storage w)) as [[e|] s'] eqn:Hd; [done|].
    split; [done|]. intros w' [= <-].
    unfold Get. erewrite read_storage_error; [done|].
    by apply (get_delete _ _ _ Hd).
Qed.

(** ** Short blocks *)

(** C10 (what the code does).  With encryption on, a stored block of
    fewer than 32 bytes makes [readEncryptedBlock], and so [Get], panic
    on the slice [content[0:p]] with [p] negative; a block of 32 to 47
    bytes whose last 32 bytes are the MAC of the rest makes it panic on
    [make] with a negative length.  Neither returns an error. *)
Theorem readEncryptedBlock_panics_on_short_blocks
    (v : Vault) (itemID : string) (content : bytes) (w : World St) :
  aes_enabled (format v) → Checksum (format v) = "hmac-sha-256" →
  GetBlock itemID (storage w) = inl content →
  ((length content < 32)%nat →
     (Get v itemID w).1 = Panic "slice bounds out of range")
  ∧ ((32 ≤ length content < 48)%nat →
     drop (length content - 32) content =
       vec_to_list (hmac_sha256 (deriveKey v purposeChecksumSecret 32).1
                      (take (length content - 32) content)) →
     (Get v itemID w).1 = Panic "makeslice: len out of range").
Proof.
  intros Ha Hk Hg.
  destruct (newCipher_aes v Ha) as [blk Hc].
  pose proof (newChecksum_hmac v Hk) as Hh. unfold Get. split.
  - intros Hs. by rewrite (read_short v blk _ _ _ _ Hc Hh Hg Hs).
  - intros Hs Hm. by rewrite (read_truncated v blk _ _ _ _ Hc Hh Hg Hs).
Qed.

End vault_facts.

(** ** The in-memory store is a lawful store *)

#[global] Instance mapStorage_laws : StorageLaws Store.
Proof.
  split.
  - intros id data s s' [= <-]. cbn. by rewrite lookup_insert_eq.
  - intros id id' data s s' e Hne [= _ <-]. cbn. by rewrite lookup_insert_ne.
  - intros id s s' [= <-]. cbn. by rewrite lookup_delete_eq.
Qed.

(** ** Creating and opening a vault on the in-memory store *)

Section lifecycle_facts.
Context {C : Crypto} {ConnectionInfo RepoFormat : Type}.
Context {JF : Json Format} {JR : Json (@repositoryConfig ConnectionInfo RepoFormat)}.

Lemma Put_mapStorage_Ok (v : Vault) (itemID : string) (p : bytes)
    (w w' : World Store) :
  aes_enabled (format v) → Checksum (format v) = "hmac-sha-256" →
  Put v itemID p w = (Ok (), w') →
  ∃ blk hash iv ct,
    newCipher v = Ok (Some blk) ∧ newChecksum v = Ok hash
    ∧ length iv = 16%nat
    ∧ (16 ≤ length (entropy w))%nat
    ∧ entropy w' = drop 16 (entropy w)
    ∧ storage w' = <[itemID := iv ++ ct ++ Sum hash (iv ++ ct)]> (storage w).
Proof.
  intros Ha Hk HP.
  destruct (newCipher_aes v Ha) as [blk Hc].
  pose proof (newChecksum_hmac v Hk) as Hh.
  destruct (decide (16 ≤ length (entropy w))%nat) as [He|He].
  - rewrite (Put_encrypted v blk _ _ _ _ Hc Hh He) in HP.
    injection HP as <-. eexists blk, _, (take 16 (entropy w)), _.
    repeat split; try done. rewrite length_take. lia.
  - by rewrite (Put_encrypted_starved v blk _ _ _ _ Hc Hh) in HP by lia.
Qed.

Lemma Create_mapStorage (vaultFormat : Format) (creds : Credentials)
    (cip : ConnectionInfo) (repoFormat : RepoFormat)
    (w0 w1 : World Store) (v : Vault) :
  aes_enabled vaultFormat → Checksum vaultFormat = "hmac-sha-256" →
  Create vaultFormat creds (Some cip) repoFormat w0 = (Ok v, w1) →
  ∃ fb iv ct hash,
    format v = {| Version := "1"; Encryption := Encryption vaultFormat;
                  Checksum := Checksum vaultFormat;
                  UniqueID := take 32 (entropy w0) |}
    ∧ masterKey v = getMasterKey creds (take 32 (entropy w0))
    ∧ json_Marshal (format v) = inl fb
    ∧ storage w1 !! formatBlockID = Some fb
    ∧ newChecksum v = Ok hash ∧ length iv = 16%nat
    ∧ storage w1 !! checksumBlockID = Some (iv ++ ct ++ Sum hash (iv ++ ct)).
Proof.
  intros Ha Hk HC.
  unfold Create, mbind, M_mbind, M_bind in HC.
  unfold rand_ReadFull at 1 in HC.
  destruct (decide (32 ≤ length (entropy w0))%nat) as [He|He]; [|done].
  set (fmt := {| Version := "1"; Encryption := Encryption vaultFormat;
                  Checksum := Checksum vaultFormat;
                  UniqueID := take 32 (entropy w0) |}) in *.
  set (v0 := {| masterKey := getMasterKey creds (take 32 (entropy w0)); format := fmt |}) in *.
  unfold lift at 1 in HC.
  destruct (json_Marshal fmt) as [fb|e] eqn:Hfb; [|done]. cbn [of_sum] in HC.
  unfold discard_error, storage_PutBlock at 1 in HC.
  cbn [PutBlock mapStorage storage entropy trace] in HC.
  unfold rand_ReadFull at 1 in HC. cbn [storage entropy trace] in HC.
  destruct (decide (512 ≤ _)%nat) as [He2|He2]; [|done].
  destruct (Put v0 checksumBlockID _ _) as [[[]|e|why] wA] eqn:HP1; try done.
  apply Put_mapStorage_Ok in HP1 as (blk & hash & iv & ct & _ & Hh & Liv & _ & _ & HsA);
    [|done..].
  unfold putJSON, mbind, M_mbind, M_bind, lift in HC.
  destruct (json_Marshal {| Connection := cip; RFormat := repoFormat |})
    as [rb|e] eqn:Hrb; [|done].
  cbn [of_sum] in HC.
  destruct (Put v0 repositoryConfigBlock rb wA) as [[[]|e|why] wB] eqn:HP2; try done.
  apply Put_mapStorage_Ok in HP2 as (_ & hash2 & iv2 & ct2 & _ & _ & _ & _ & _ & HsB);
    [|done..].
  unfold mret, M_mret, M_ret in HC. injection HC as <- <-.
  exists fb, iv, ct, hash. repeat split; try done.
  - rewrite HsB, HsA. cbn [storage].
    rewrite lookup_insert_ne by done. rewrite lookup_insert_ne by done.
    by rewrite lookup_insert_eq.
  - rewrite HsB, HsA. rewrite lookup_insert_ne by done.
    by rewrite lookup_insert_eq.
Qed.

(** With enough random bytes and encodable descriptors [Create] succeeds. *)
Lemma Create_mapStorage_Ok (vaultFormat : Format) (creds : Credentials)
    (cip : ConnectionInfo) (repoFormat : RepoFormat) (w0 : World Store)
    (fb rb : bytes) :
  aes_enabled vaultFormat → Checksum vaultFormat = "hmac-sha-256" →
  (576 ≤ length (entropy w0))%nat →
  json_Marshal {| Version := "1"; Encryption := Encryption vaultFormat;
                  Checksum := Checksum vaultFormat;
                  UniqueID := take 32 (entropy w0) |} = inl fb →
  json_Marshal {| Connection := cip; RFormat := repoFormat |} = inl rb →
  ∃ v w1, Create vaultFormat creds (Some cip) repoFormat w0 = (Ok v, w1).
Proof.
  intros Ha Hk He Hfb Hrb.
  unfold Create, mbind, M_mbind, M_bind.
  unfold rand_ReadFull at 1. rewrite decide_True by lia.
  set (fmt := {| Version := "1"; Encryption := Encryption vaultFormat;
                  Checksum := Checksum vaultFormat;
                  UniqueID := take 32 (entropy w0) |}) in *.
  set (v0 := {| masterKey := getMasterKey creds (take 32 (entropy w0)); format := fmt |}) in *.
  unfold lift at 1. rewrite Hfb. cbn [of_sum].
  unfold discard_error, storage_PutBlock at 1.
  cbn [PutBlock mapStorage storage entropy trace].
  unfold rand_ReadFull at 1. cbn [storage entropy trace].
  rewrite decide_True by (rewrite length_drop; lia).
  destruct (newCipher_aes v0 Ha) as [blk Hc].
  pose proof (newChecksum_hmac v0 Hk) as Hh.
  rewrite (Put_encrypted v0 blk _ _ _ _ Hc Hh)
    by (cbn [entropy]; rewrite !length_drop; lia).
  unfold storage_PutBlock at 1. cbn [PutBlock mapStorage storage entropy trace log].
  unfold putJSON, mbind, M_mbind, M_bind, lift. rewrite Hrb. cbn [of_sum].
  rewrite (Put_encrypted v0 blk _ _ _ _ Hc Hh)
    by (cbn [entropy]; rewrite !length_drop; lia).
  unfold storage_PutBlock at 1. cbn [PutBlock mapStorage storage entropy trace log].
  unfold mret, M_mret, M_ret. eauto.
Qed.

Lemma Open_mapStorage (creds' : Credentials) (w1 : World Store)
    (fb : bytes) (fmt : Format) (iv ct tag : bytes) (hash' : Hash) :
  storage w1 !! formatBlockID = Some fb →
  json_Unmarshal fb zeroFormat = (fmt, None) →
  aes_enabled fmt →
  storage w1 !! checksumBlockID = Some (iv ++ ct ++ tag) →
  length iv = 16%nat → length tag = 32%nat →
  let v' := {| masterKey := getMasterKey creds' (UniqueID fmt); format := fmt |} in
  newChecksum v' = Ok hash' →
  (Open creds' w1).1 =
    if decide (Sum hash' (iv ++ ct) = tag) then Ok v' else Err incorrect_checksum.
Proof.
  intros Hf Hu Ha Hs Liv Ltag v' Hh.
  destruct (newCipher_aes v' Ha) as [blk Hc].
  unfold Open, mbind, M_mbind, M_bind, storage_GetBlock.
  cbn [GetBlock mapStorage]. rewrite Hf. cbn [of_sum].
  unfold jsonUnmarshal. rewrite Hu. fold v'.
  case_decide as Hm.
  - erewrite read_sealed; [done|done|done|..|done|done].
    cbn [GetBlock mapStorage storage log]. by rewrite Hs.
  - erewrite read_mismatch; [done|done|done|..].
    + cbn [GetBlock mapStorage storage log]. by rewrite Hs.
    + rewrite !length_app. lia.
    + rewrite !length_app, Ltag.
      replace (length iv + (length ct + 32) - 32)%nat
        with (length (iv ++ ct)) by (rewrite length_app; lia).
      rewrite app_assoc, take_app_length, drop_app_length. done.
Qed.

(** C4 (as the code has it).  After [Create] with AES encryption, the
    "checksum" item holds [body ++ tag] with [tag] the HMAC of [body]
    under the MAC key derived from the creator's master key, and [Open]
    with any credentials returns the "incorrect checksum" error, and no
    vault, exactly when the HMAC of [body] under the MAC key derived from
    the opener's master key differs from [tag]; when the two agree it
    returns the vault. *)
Theorem Open_checks_the_sentinel_tag (vaultFormat : Format) (creds : Credentials)
    (cip : ConnectionInfo) (repoFormat : RepoFormat)
    (w0 w1 : World Store) (v : Vault) :
  aes_enabled vaultFormat → Checksum vaultFormat = "hmac-sha-256" →
  Create vaultFormat creds (Some cip) repoFormat w0 = (Ok v, w1) →
  (∀ fb, json_Marshal (format v) = inl fb →
         json_Unmarshal fb zeroFormat = (format v, None)) →
  ∃ body tag,
    storage w1 !! checksumBlockID = Some (body ++ tag)
    ∧ tag = vec_to_list
              (hmac_sha256 (deriveKey v purposeChecksumSecret 32).1 body)
    ∧ ∀ creds' : Credentials,
        let v' := {| masterKey := getMasterKey creds' (UniqueID (format v));
                     format := format v |} in
        (Open creds' w1).1 =
          if decide (vec_to_list
                       (hmac_sha256 (deriveKey v' purposeChecksumSecret 32).1 body)
                     = tag)
          then Ok v' else Err incorrect_checksum.
Proof.
  intros Ha Hk HC Hj.
  destruct (Create_mapStorage _ _ _ _ _ _ _ Ha Hk HC)
    as (fb & iv & ct & hash & Hfmt & Hmk & Hfb & Hsf & Hh & Liv & Hsc).
  assert (aes_enabled (format v)) as Ha' by (by rewrite Hfmt).
  assert (Checksum (format v) = "hmac-sha-256") as Hk' by (by rewrite Hfmt).
  assert (hash = {| mac_key := (deriveKey v purposeChecksumSecret 32).1 |})
    as -> by (rewrite (newChecksum_hmac v Hk') in Hh; congruence).
  exists (iv ++ ct), (Sum {| mac_key := (deriveKey v purposeChecksumSecret 32).1 |} (iv ++ ct)).
  split; [by rewrite <- app_assoc|]. split; [done|].
  intros creds' v'.
  apply (Open_mapStorage creds' w1 fb (format v) iv ct _
           {| mac_key := (deriveKey v' purposeChecksumSecret 32).1 |}); try done.
  - by apply Hj.
  - apply Sum_length.
  - by apply newChecksum_hmac.
Qed.

End lifecycle_facts.

(** C4 (as stated) does not hold, whatever the primitives: the MAC key
    has 32 bytes and master keys are unbounded, so two different master
    keys share a MAC key, and the second opens the vault the first
    created.  The in-memory codecs show the premise on the codecs can be
    met. *)
Lemma wrong_key_sometimes_accepted :
  json_faithful Toy.json_Format Toy.json_repositoryConfig
  ∧ ¬ ∃ (C : Crypto) (JF : Json Format) (JR : Json repositoryConfig),
        json_faithful JF JR ∧ wrong_key_always_rejected C JF JR.
Proof.
  split.
  { split; [intros uid|]; eexists; split; reflexivity. }
  intros (C & JF & JR & [Hf [rb Hr]] & Hclaim).
  set (w0 := Example.w_fresh).
  set (uid := take 32 (entropy w0)).
  pose (f := λ k : { l : bytes | length l = 33%nat },
          (hkdf_ReadFull (`k) uid purposeChecksumSecret 32).1
            ↾ hkdf_ReadFull_length (`k) uid purposeChecksumSecret 32
          : { l : bytes | length l = 32%nat }).
  destruct (finite_pigeonhole f) as (k1 & k2 & Hne & Heq).
  { rewrite !list_card. apply Nat.pow_lt_mono_r; [|lia].
    unfold card. cbn. lia. }
  apply (f_equal proj1_sig) in Heq. cbn [f proj1_sig] in Heq.
  assert (`k2 ≠ `k1) as Hne' by (intros E; apply Hne; symmetry; by apply (sig_eq_pi _)).
  destruct (Hf uid) as (fb & Hfb & Hfu).
  assert (aes_enabled (format128 [])) as Ha by (by left).
  destruct (Create_mapStorage_Ok (format128 []) (Example.creds (`k1)) [] [] w0 fb rb)
    as (v & w1 & HC); [exact Ha|done| |exact Hfb|exact Hr|].
  { unfold w0, Example.w_fresh. cbn [entropy]. rewrite length_replicate. lia. }
  destruct (Create_mapStorage _ _ _ _ _ _ _ Ha eq_refl HC)
    as (fb' & iv & ct & hash & Hfmt & Hmk & Hfb' & Hsf & Hh & Liv & Hsc).
  change (format v = format128 uid) in Hfmt.
  assert (fb' = fb) as -> by (rewrite Hfmt, Hfb in Hfb'; congruence).
  assert (hash = {| mac_key := (deriveKey v purposeChecksumSecret 32).1 |})
    as -> by (rewrite newChecksum_hmac in Hh by (by rewrite Hfmt); congruence).
  destruct (Hclaim _ _ (Example.creds (`k2)) _ _ _ _ _ Ha eq_refl HC)
    as (e & w2 & Hopen').
  { by rewrite Hmk. }
  set (tag := Sum {| mac_key := (deriveKey v purposeChecksumSecret 32).1 |} (iv ++ ct)) in *.
  set (v' := {| masterKey := getMasterKey (Example.creds (`k2)) (UniqueID (format v));
                format := format v |}).
  set (hash' := {| mac_key := (deriveKey v' purposeChecksumSecret 32).1 |}).
  assert ((Open (Example.creds (`k2)) w1).1 =
            if decide (Sum hash' (iv ++ ct) = tag) then Ok v'
            else Err incorrect_checksum) as Hopen.
  { apply (Open_mapStorage (Example.creds (`k2)) w1 fb (format v) iv ct tag hash');
      try done.
    - by rewrite Hfmt.
    - rewrite Hfmt. by left.
    - apply Sum_length.
    - apply (newChecksum_hmac v'). unfold v'. cbn [format]. by rewrite Hfmt. }
  rewrite Hopen' in Hopen. rewrite decide_True in Hopen; [done|].
  unfold tag, hash', Sum, deriveKey. cbn [mac_key masterKey format v'].
  rewrite Hmk, Hfmt. cbn [UniqueID Example.creds getMasterKey format128].
  by rewrite Heq.
Qed.

(** ** Tokens *)

Section token_facts.
Context {C : Crypto} {St : Type} {SS : Storage St}.
Context {ConnectionInfo : Type} {CI : Inhabited ConnectionInfo}.
Context {JF : Json Format} {JV : Json (@vaultConfig ConnectionInfo)}.
Context {TE : @TokenEnv St ConnectionInfo}.

(** C8 (as the code has it).  A token that [OpenWithToken] rejects
    before [Open] runs is reported by the stage that rejected it:
    malformed base64 as "invalid vault base64 token: " followed by the
    decoder's error, malformed JSON as "invalid vault json token: "
    followed by the decoder's error, and a key that [MasterKey] rejects
    (checked once the store of the token has been constructed) as the
    fixed "invalid vault token".  The first two differ from each other
    and from the third whatever the decoders report.  No vault is
    returned and the store is not touched. *)
Theorem OpenWithToken_rejects_by_stage (token : string) (w : World St) :
  (∀ e, base64_RawURLEncoding_DecodeString token = inr e →
     OpenWithToken token w = (Err ("invalid vault base64 token: " +:+ e), w))
  ∧ (∀ b vc e,
       base64_RawURLEncoding_DecodeString token = inl b →
       json_Unmarshal b zero_vaultConfig = (vc, Some e) →
       OpenWithToken token w
         = (Err ("invalid vault json token: " +:+ e), log (EvUnmarshal b) w))
  ∧ (∀ b vc st e,
       base64_RawURLEncoding_DecodeString token = inl b →
       json_Unmarshal b zero_vaultConfig = (vc, None) →
       blob_NewStorage (VConnectionInfo vc) = inl st →
       MasterKey (Key vc) = inr e →
       OpenWithToken token w
         = (Err "invalid vault token"%string, log (EvUnmarshal b) w))
  ∧ (∀ e1 e2 : error,
       "invalid vault base64 token: " +:+ e1 ≠ "invalid vault json token: " +:+ e2
       ∧ "invalid vault base64 token: " +:+ e1 ≠ "invalid vault token"
       ∧ "invalid vault json token: " +:+ e2 ≠ "invalid vault token").
Proof.
  unfold OpenWithToken, mbind, M_mbind, M_bind, jsonUnmarshal, lift.
  repeat split.
  - by intros e ->.
  - intros b vc e -> Hu. by rewrite Hu.
  - intros b vc st e -> Hu Hs Hk. by rewrite Hu, Hs, Hk.
  - discriminate.
  - discriminate.
  - discriminate.
Qed.

End token_facts.

(** * More of the package *)

(** ** Unsupported names, failing reads, tampering *)

Section more_codec_facts.
Context {C : Crypto} {St : Type} {SS : Storage St}.

Lemma newCipher_unsupported (v : Vault) :
  Encryption (format v) ≠ "none" → ¬ aes_enabled (format v) →
  newCipher v = Err ("unsupported encryption format: " +:+ Encryption (format v)).
Proof.
  intros Hn Ha. unfold aes_enabled in Ha. unfold newCipher.
  repeat (rewrite decide_False by tauto). done.
Qed.

Lemma Put_unsupported_encryption
    (v : Vault) (itemID : string) (p : bytes) (w : World St) :
  Encryption (format v) ≠ "none" → ¬ aes_enabled (format v) →
  Put v itemID p w
    = (Err ("unsupported encryption format: " +:+ Encryption (format v)), w).
Proof.
  intros Hn Ha. unfold Put, mbind, M_mbind, M_bind, lift.
  by rewrite (newCipher_unsupported v Hn Ha).
Qed.

(** X1.  When the format names an encryption other than "none",
    "aes-128", "aes-192" and "aes-256", [Put] returns "unsupported
    encryption format: " followed by the name and leaves the world as it
    was (nothing written, no random bytes read); [Get] of a stored block
    returns the same error, after the one [GetBlock]. *)
Theorem unsupported_encryption_is_reported
    (v : Vault) (itemID : string) (p : bytes) (w : World St) :
  Encryption (format v) ≠ "none" → ¬ aes_enabled (format v) →
  Put v itemID p w
    = (Err ("unsupported encryption format: " +:+ Encryption (format v)), w)
  ∧ ∀ content, GetBlock itemID (storage w) = inl content →
      Get v itemID w
        = (Err ("unsupported encryption format: " +:+ Encryption (format v)),
           log (EvGetBlock itemID) w).
Proof.
  intros Hn Ha. pose proof (newCipher_unsupported v Hn Ha) as Hc. split.
  - unfold Put, mbind, M_mbind, M_bind, lift. by rewrite Hc.
  - intros content Hg.
    unfold Get, readEncryptedBlock, mbind, M_mbind, M_bind, lift, storage_GetBlock.
    by rewrite Hg, Hc.
Qed.

(** X2.  With an AES encryption and a checksum name other than
    "hmac-sha-256", [Put] returns "unsupported checksum format: "
    followed by the name and leaves the world as it was; [Get] of a
    stored block returns the same error. *)
Theorem unsupported_checksum_is_reported
    (v : Vault) (itemID : string) (p : bytes) (w : World St) :
  aes_enabled (format v) → Checksum (format v) ≠ "hmac-sha-256" →
  Put v itemID p w
    = (Err ("unsupported checksum format: " +:+ Checksum (format v)), w)
  ∧ ∀ content, GetBlock itemID (storage w) = inl content →
      Get v itemID w
        = (Err ("unsupported checksum format: " +:+ Checksum (format v)),
           log (EvGetBlock itemID) w).
Proof.
  intros Ha Hk. destruct (newCipher_aes v Ha) as [blk Hc].
  assert (newChecksum v
          = Err ("unsupported checksum format: " +:+ Checksum (format v))) as Hh
    by (unfold newChecksum; by rewrite decide_False).
  split.
  - unfold Put, mbind, M_mbind, M_bind, lift. by rewrite Hc, Hh.
  - intros content Hg.
    unfold Get, readEncryptedBlock, mbind, M_mbind, M_bind, lift, storage_GetBlock.
    by rewrite Hg, Hc, Hh.
Qed.

(** X3.  [newCipher] gives the nil cipher for "none", and for
    "aes-128", "aes-192" and "aes-256" it always succeeds, with a key of
    exactly 16, 24 and 32 bytes derived for the purpose "AES": since
    [deriveKey]'s error is dropped, the bytes a short HKDF stream does not
    deliver stay zero in the key. *)
Theorem newCipher_key_sizes (v : Vault) :
  (Encryption (format v) = "none" → newCipher v = Ok None)
  ∧ ∀ n : nat,
      (Encryption (format v) = "aes-128" ∧ n = 16%nat)
      ∨ (Encryption (format v) = "aes-192" ∧ n = 24%nat)
      ∨ (Encryption (format v) = "aes-256" ∧ n = 32%nat) →
      ∃ blk, newCipher v = Ok (Some blk)
             ∧ blk_key blk = (deriveKey v purposeAESKey n).1
             ∧ length (blk_key blk) = n
             ∧ ∀ i, (length (hkdf_sha256 (masterKey v) (UniqueID (format v))
                               purposeAESKey) ≤ i < n)%nat →
                    blk_key blk !! i = Some x00.
Proof.
  split; [apply newCipher_none|].
  intros n Hn.
  exists {| blk_key := (deriveKey v purposeAESKey n).1 |}.
  split.
  - unfold newCipher.
    destruct Hn as [[E ->]|[[E ->]|[E ->]]]; rewrite E;
      repeat (case_decide; try done);
      by rewrite aes_NewCipher_Ok
        by (unfold deriveKey; rewrite hkdf_ReadFull_length; auto).
  - split; [done|]. cbn [blk_key]. unfold deriveKey.
    split; [apply hkdf_ReadFull_length|].
    intros i Hi. unfold hkdf_ReadFull. cbn [fst].
    rewrite lookup_app_r by (rewrite length_take; lia).
    apply lookup_replicate_2. rewrite length_take. lia.
Qed.


Lemma Put_get_back {SL : StorageLaws St}
    (v : Vault) (itemID : string) (p : bytes) (w w' : World St) :
  Encryption (format v) = "none" ∨ aes_enabled (format v) →
  Checksum (format v) = "hmac-sha-256" →
  Put v itemID p w = (Ok (), w') →
  readEncryptedBlock v itemID w' = (Ok p, (readEncryptedBlock v itemID w').2).
Proof.
  intros [Hn|Ha] Hk HP.
  - rewrite (Put_none v _ _ _ Hn) in HP.
    apply storage_PutBlock_Ok in HP as (HP & _ & _).
    rewrite (read_none v _ _ Hn). by rewrite (get_put _ _ _ _ HP).
  - destruct (newCipher_aes v Ha) as [blk Hc].
    pose proof (newChecksum_hmac v Hk) as Hh.
    destruct (decide (16 ≤ length (entropy w))%nat) as [He|He].
    + rewrite (Put_encrypted v blk _ _ _ _ Hc Hh He) in HP.
      apply storage_PutBlock_Ok in HP as (HP & _ & _).
      apply get_put in HP. cbn [storage log] in HP.
      erewrite read_sealed; [|done|done|exact HP|..]; [|by rewrite length_take; lia|done].
      cbn [snd]. f_equal. f_equal.
      rewrite xor_bytes_length by apply keystream_length.
      apply xor_bytes_cancel, keystream_length.
    + by rewrite (Put_encrypted_starved v blk _ _ _ _ Hc Hh) in HP by lia.
Qed.


(** X5.  With encryption on, the block a successful [Put] stored is
    [body ++ tag] with [body] of 16 bytes more than the payload and [tag]
    of 32 bytes, and any store that holds [body] followed by 32 other
    bytes under that item makes [Get] return the "incorrect checksum"
    error: a changed tag is always caught. *)
Theorem tampered_tag_is_rejected {SL : StorageLaws St}
    (v : Vault) (itemID : string) (p : bytes) (w w1 : World St) :
  aes_enabled (format v) → Checksum (format v) = "hmac-sha-256" →
  Put v itemID p w = (Ok (), w1) →
  ∃ body tag,
    GetBlock itemID (storage w1) = inl (body ++ tag)
    ∧ length body = (16 + length p)%nat ∧ length tag = 32%nat
    ∧ ∀ (tag' : bytes) (w2 : World St),
        length tag' = 32%nat → tag' ≠ tag →
        GetBlock itemID (storage w2) = inl (body ++ tag') →
        Get v itemID w2 = (Err incorrect_checksum, log (EvGetBlock itemID) w2).
Proof.
  intros Ha Hk HP. destruct (newCipher_aes v Ha) as [blk Hc].
  pose proof (newChecksum_hmac v Hk) as Hh.
  destruct (decide (16 ≤ length (entropy w))%nat) as [He|He];
    [|by rewrite (Put_encrypted_starved v blk _ _ _ _ Hc Hh) in HP by lia].
  rewrite (Put_encrypted v blk _ _ _ _ Hc Hh He) in HP.
  apply storage_PutBlock_Ok in HP as (HP & _ & _).
  apply get_put in HP. cbn [storage log] in HP.
  set (iv := take 16 (entropy w)) in *.
  set (ct := xor_bytes p (keystream blk iv (length p))) in *.
  assert (length (iv ++ ct) = (16 + length p)%nat) as Lb.
  { rewrite length_app. unfold iv, ct.
    rewrite length_take, xor_bytes_length by apply keystream_length. lia. }
  eexists (iv ++ ct), _. split; [by rewrite <- app_assoc|].
  split; [done|]. split; [apply Sum_length|].
  intros tag' w2 Lt Hne Hg.
  unfold Get. apply (read_mismatch v blk _ _ _ _ Hc Hh Hg).
  - rewrite length_app. lia.
  - rewrite length_app, Lt.
    replace (length (iv ++ ct) + 32 - 32)%nat with (length (iv ++ ct)) by lia.
    rewrite take_app_length, drop_app_length. congruence.
Qed.

(** X6.  With encryption on, whenever [Get] returns a payload the stored
    block has at least 48 bytes, its last 32 bytes are the HMAC of the
    rest under the derived MAC key, and the payload, 48 bytes shorter
    than the block, is the CTR key stream for the block's first 16 bytes
    xored onto the bytes in between. *)
Theorem Get_returns_only_authenticated_plaintext
    (v : Vault) (itemID : string) (content p : bytes) (w : World St) :
  aes_enabled (format v) → Checksum (format v) = "hmac-sha-256" →
  GetBlock itemID (storage w) = inl content →
  (Get v itemID w).1 = Ok p →
  ∃ blk,
    newCipher v = Ok (Some blk)
    ∧ (48 ≤ length content)%nat
    ∧ drop (length content - 32) content
        = vec_to_list (hmac_sha256 (deriveKey v purposeChecksumSecret 32).1
                         (take (length content - 32) content))
    ∧ length p = (length content - 48)%nat
    ∧ p = xor_bytes (take (length content - 48) (drop 16 content))
            (keystream blk (take 16 content) (length content - 48)).
Proof.
  intros Ha Hk Hg HG. destruct (newCipher_aes v Ha) as [blk Hc].
  pose proof (newChecksum_hmac v Hk) as Hh. unfold Get in HG.
  exists blk. split; [done|].
  destruct (decide (length content < 32)%nat) as [Hs|Hs];
    [by rewrite (read_short v blk _ _ _ _ Hc Hh Hg Hs) in HG|].
  destruct (decide (Sum {| mac_key := (deriveKey v purposeChecksumSecret 32).1 |}
                      (take (length content - 32) content)
                    = drop (length content - 32) content)) as [Hm|Hm];
    [|by rewrite (read_mismatch v blk _ _ _ _ Hc Hh Hg) in HG by (done || lia)].
  destruct (decide (length content < 48)%nat) as [Ht|Ht];
    [by rewrite (read_truncated v blk _ _ _ _ Hc Hh Hg) in HG by (done || lia)|].
  rewrite (read_verified v blk _ _ _ _ Hc Hh Hg) in HG by (done || lia).
  cbn [fst] in HG. injection HG as <-.
  assert (length (take (length content - 48) (drop 16 content))
          = (length content - 48)%nat) as Lct
    by (rewrite length_take, length_drop; lia).
  split; [lia|]. split; [done|]. split.
  - by rewrite xor_bytes_length by apply keystream_length.
  - by rewrite Lct.
Qed.

Lemma Put_storage (v : Vault) (itemID : string) (p : bytes) (w : World St) :
  storage (Put v itemID p w).2 = storage w
  ∨ ∃ data, storage (Put v itemID p w).2 = (PutBlock itemID data (storage w)).2.
Proof.
  unfold Put, mbind, M_mbind, M_bind, lift, rand_ReadFull, XORKeyStream,
    storage_PutBlock, mret, M_mret, M_ret.
  repeat case_match; simplify_eq; cbn [snd storage log];
    try (by left);
    right; eexists;
    match goal with
    | H : PutBlock _ _ _ = _ |- _ => cbn [storage log] in H; by rewrite H
    end.
Qed.

Lemma read_depends_on_block (v : Vault) (itemID : string) (w w' : World St) :
  GetBlock itemID (storage w) = GetBlock itemID (storage w') →
  (readEncryptedBlock v itemID w).1 = (readEncryptedBlock v itemID w').1.
Proof.
  intros E.
  unfold readEncryptedBlock, mbind, M_mbind, M_bind, lift, storage_GetBlock,
    XORKeyStream, mret, M_mret, M_ret.
  rewrite E. repeat case_match; by simplify_eq.
Qed.

(** X7.  [Put] of one item, whatever its outcome, leaves every other
    item as it was: the store returns the same block for it, and [Get]
    by any vault gives the same result for it as before. *)
Theorem Put_leaves_other_items {SL : StorageLaws St}
    (v v' : Vault) (itemID itemID' : string) (p : bytes) (w : World St) :
  itemID ≠ itemID' →
  GetBlock itemID' (storage (Put v itemID p w).2) = GetBlock itemID' (storage w)
  ∧ (Get v' itemID' (Put v itemID p w).2).1 = (Get v' itemID' w).1.
Proof.
  intros Hne.
  assert (GetBlock itemID' (storage (Put v itemID p w).2)
          = GetBlock itemID' (storage w)) as E.
  { destruct (Put_storage v itemID p w) as [->|[data ->]]; [done|].
    destruct (PutBlock itemID data (storage w)) as [e s'] eqn:HP.
    by apply (get_put_ne _ _ _ _ _ _ Hne HP). }
  split; [done|]. unfold Get. by apply read_depends_on_block.
Qed.

(** X8.  With encryption on, two [Put]s in a row store blocks that start
    with the first and the second 16 bytes the random source delivers;
    the two blocks differ whenever those two chunks differ, also for equal
    payloads and equal items. *)
Theorem successive_Puts_draw_successive_IVs
    (v : Vault) (id1 id2 : string) (p1 p2 : bytes) (w w1 : World St) :
  aes_enabled (format v) → Checksum (format v) = "hmac-sha-256" →
  (32 ≤ length (entropy w))%nat →
  Put v id1 p1 w = (Ok (), w1) →
  ∃ blob1 blob2,
    last (trace w1) = Some (EvPutBlock id1 blob1)
    ∧ last (trace (Put v id2 p2 w1).2) = Some (EvPutBlock id2 blob2)
    ∧ take 16 blob1 = take 16 (entropy w)
    ∧ take 16 blob2 = take 16 (drop 16 (entropy w))
    ∧ (take 16 (entropy w) ≠ take 16 (drop 16 (entropy w)) → blob1 ≠ blob2).
Proof.
  intros Ha Hk He HP. destruct (newCipher_aes v Ha) as [blk Hc].
  pose proof (newChecksum_hmac v Hk) as Hh.
  rewrite (Put_encrypted v blk _ _ _ _ Hc Hh) in HP by lia.
  apply storage_PutBlock_Ok in HP as (_ & He1 & Ht1).
  cbn [log entropy trace] in He1, Ht1.
  assert (16 ≤ length (entropy w1))%nat as He2
    by (rewrite He1, length_drop; lia).
  rewrite (Put_encrypted v blk _ _ _ _ Hc Hh He2).
  eexists _, _. split; [by rewrite Ht1, last_snoc|].
  split.
  { unfold storage_PutBlock, log. cbn [storage entropy trace].
    destruct (PutBlock _ _ _) as [e s']. cbn [snd trace]. by rewrite last_snoc. }
  assert (∀ (ent rest : bytes), (16 ≤ length ent)%nat →
            take 16 (take 16 ent ++ rest) = take 16 ent) as Htk.
  { intros ent rest Hl. rewrite take_app_le by (rewrite length_take; lia).
    rewrite take_take. f_equal. }
  split; [apply Htk; lia|].
  split; [rewrite He1; apply Htk; rewrite length_drop; lia|].
  intros Hne Heq. apply Hne.
  apply (f_equal (take 16)) in Heq.
  rewrite He1 in Heq.
  by rewrite !Htk in Heq by (rewrite ?length_drop; lia).
Qed.

(** X9.  A value stored by [putJSON] is read back by [getJSON], for
    every supported format, provided [json.Unmarshal] decodes what
    [json.Marshal] made of that value. *)
Theorem putJSON_getJSON_roundtrip {T : Type} {JT : Json T} {SL : StorageLaws St}
    (v : Vault) (itemID : string) (x x0 : T) (w w' : World St) :
  Encryption (format v) = "none" ∨ aes_enabled (format v) →
  Checksum (format v) = "hmac-sha-256" →
  (∀ b, json_Marshal x = inl b → json_Unmarshal b x0 = (x, None)) →
  putJSON v itemID x w = (Ok (), w') →
  (getJSON v itemID x0 w').1 = Ok (x, None).
Proof.
  intros He Hk Hj HP. unfold putJSON, mbind, M_mbind, M_bind, lift in HP.
  destruct (json_Marshal x) as [b|e] eqn:Hb; [|done]. cbn [of_sum] in HP.
  unfold getJSON. rewrite (Put_get_back v itemID b w w' He Hk HP).
  unfold jsonUnmarshal. cbn [fst]. by rewrite (Hj b eq_refl).
Qed.

End more_codec_facts.

(** ** Creation, the repository's descriptor, listing, tokens *)

Section more_lifecycle_facts.
Context {C : Crypto} {St : Type} {SS : Storage St}.
Context {ConnectionInfo RepoFormat : Type}.
Context {CI : Inhabited ConnectionInfo} {RI : Inhabited RepoFormat}.
Context {JF : Json Format}.
Context {JR : Json (@repositoryConfig ConnectionInfo RepoFormat)}.
Context {JV : Json (@vaultConfig ConnectionInfo)}.

Lemma Create_steps (vaultFormat : Format) (creds : Credentials)
    (repoStorage : option ConnectionInfo) (repoFormat : RepoFormat)
    (w0 w1 : World St) (v : Vault) :
  Create vaultFormat creds repoStorage repoFormat w0 = (Ok v, w1) →
  ∃ cip fb rb wA wB,
    repoStorage = Some cip
    ∧ (32 ≤ length (entropy w0))%nat
    ∧ v = {| masterKey := getMasterKey creds (take 32 (entropy w0));
             format := {| Version := "1";
                          Encryption := Encryption vaultFormat;
                          Checksum := Checksum vaultFormat;
                          UniqueID := take 32 (entropy w0) |} |}
    ∧ json_Marshal (format v) = inl fb
    ∧ storage wA = (PutBlock formatBlockID fb (storage w0)).2
    ∧ entropy wA = drop 32 (entropy w0)
    ∧ (512 ≤ length (entropy wA))%nat
    ∧ Put v checksumBlockID (take 512 (entropy wA))
        (mkWorld (storage wA) (drop 512 (entropy wA))
           (trace wA ++ [EvRandRead 512])) = (Ok (), wB)
    ∧ json_Marshal {| Connection := cip; RFormat := repoFormat |} = inl rb
    ∧ Put v repositoryConfigBlock rb wB = (Ok (), w1).
Proof.
  intros HC. destruct repoStorage as [cip|]; [|done].
  unfold Create, mbind, M_mbind, M_bind in HC.
  unfold rand_ReadFull at 1 in HC.
  destruct (decide (32 ≤ length (entropy w0))%nat) as [He|He]; [|done].
  set (fmt := {| Version := "1"; Encryption := Encryption vaultFormat;
                  Checksum := Checksum vaultFormat;
                  UniqueID := take 32 (entropy w0) |}) in *.
  set (v0 := {| masterKey := getMasterKey creds (take 32 (entropy w0));
                format := fmt |}) in *.
  unfold lift at 1 in HC.
  destruct (json_Marshal fmt) as [fb|e] eqn:Hfb; [|done]. cbn [of_sum] in HC.
  destruct (discard_error _ _) as [[[]|e|why] wA] eqn:Hd; try done.
  assert (storage wA = (PutBlock formatBlockID fb (storage w0)).2
          ∧ entropy wA = drop 32 (entropy w0)) as [HsA HeA].
  { unfold discard_error, storage_PutBlock in Hd. cbn [storage entropy] in Hd.
    destruct (PutBlock formatBlockID fb (storage w0)) as [[e|] s'];
      by injection Hd as <-. }
  rename HC into HC'.
  unfold rand_ReadFull in HC'.
  destruct (decide (512 ≤ length (entropy wA))%nat) as [He2|He2]; [|done].
  destruct (Put v0 checksumBlockID _ _) as [[[]|e|why] wB] eqn:HP1; try done.
  unfold putJSON, mbind, M_mbind, M_bind, lift in HC'.
  destruct (json_Marshal {| Connection := cip; RFormat := repoFormat |})
    as [rb|e] eqn:Hrb; [|done].
  cbn [of_sum] in HC'.
  destruct (Put v0 repositoryConfigBlock rb wB) as [[[]|e|why] wC] eqn:HP2; try done.
  unfold mret, M_mret, M_ret in HC'. injection HC' as <- <-.
  by exists cip, fb, rb, wA, wB.
Qed.

(** X10.  The vault [Create] returns has version "1" and, as unique id,
    the first 32 random bytes drawn, whatever version and unique id the
    caller's format carried; it keeps the caller's encryption and
    checksum names, and its master key is what the credentials give for
    that unique id. *)
Theorem Create_fixes_version_and_unique_id (vaultFormat : Format)
    (creds : Credentials) (repoStorage : option ConnectionInfo)
    (repoFormat : RepoFormat) (w0 w1 : World St) (v : Vault) :
  Create vaultFormat creds repoStorage repoFormat w0 = (Ok v, w1) →
  Version (format v) = "1"
  ∧ Encryption (format v) = Encryption vaultFormat
  ∧ Checksum (format v) = Checksum vaultFormat
  ∧ UniqueID (format v) = take 32 (entropy w0)
  ∧ length (UniqueID (format v)) = 32%nat
  ∧ masterKey v = getMasterKey creds (UniqueID (format v)).
Proof.
  intros HC.
  destruct (Create_steps _ _ _ _ _ _ _ HC) as (cip & fb & rb & wA & wB & _ & He & -> & _).
  cbn. repeat split. rewrite length_take. lia.
Qed.

Lemma repoConfig_after_Create {SL : StorageLaws St}
    (vaultFormat : Format) (creds : Credentials) (cip : ConnectionInfo)
    (repoFormat : RepoFormat) (w0 w1 : World St) (v : Vault) :
  Encryption vaultFormat = "none" ∨ aes_enabled vaultFormat →
  Checksum vaultFormat = "hmac-sha-256" →
  (∀ rb, json_Marshal {| Connection := cip; RFormat := repoFormat |} = inl rb →
         json_Unmarshal rb zero_repositoryConfig
           = ({| Connection := cip; RFormat := repoFormat |}, None)) →
  Create vaultFormat creds (Some cip) repoFormat w0 = (Ok v, w1) →
  (repoConfig v w1).1 = Ok {| Connection := cip; RFormat := repoFormat |}.
Proof.
  intros He Hk Hj HC.
  destruct (Create_steps _ _ _ _ _ _ _ HC)
    as (cip' & fb & rb & wA & wB & [= <-] & _ & Hv & _ & _ & _ & _ & _ & Hrb & HP).
  assert (Encryption (format v) = "none" ∨ aes_enabled (format v)) as He'
    by (by rewrite Hv).
  assert (Checksum (format v) = "hmac-sha-256") as Hk' by (by rewrite Hv).
  unfold repoConfig. rewrite (Put_get_back v _ rb wB w1 He' Hk' HP).
  unfold jsonUnmarshal. by rewrite (Hj rb Hrb).
Qed.

(** X11.  After [Create], [RepositoryFormat] on the vault returns the
    repository format that was passed to [Create], for every supported
    format, provided [json.Unmarshal] decodes what [json.Marshal] made of
    the repository configuration. *)
Theorem RepositoryFormat_after_Create {SL : StorageLaws St}
    (vaultFormat : Format) (creds : Credentials) (cip : ConnectionInfo)
    (repoFormat : RepoFormat) (w0 w1 : World St) (v : Vault) :
  Encryption vaultFormat = "none" ∨ aes_enabled vaultFormat →
  Checksum vaultFormat = "hmac-sha-256" →
  (∀ rb, json_Marshal {| Connection := cip; RFormat := repoFormat |} = inl rb →
         json_Unmarshal rb zero_repositoryConfig
           = ({| Connection := cip; RFormat := repoFormat |}, None)) →
  Create vaultFormat creds (Some cip) repoFormat w0 = (Ok v, w1) →
  (RepositoryFormat v w1).1 = Ok repoFormat.
Proof.
  intros He Hk Hj HC.
  pose proof (repoConfig_after_Create _ _ _ _ _ _ _ He Hk Hj HC) as Hrc.
  unfold RepositoryFormat, mbind, M_mbind, M_bind.
  destruct (repoConfig v w1) as [o w']. cbn [fst] in Hrc. by subst o.
Qed.


(** X12.  After [Create], [OpenRepository] on the vault constructs the
    store of the connection descriptor [Create] was given and returns
    what [repo.NewRepository] returns for that store and the repository
    format passed to [Create]; when the store cannot be constructed the
    error is "unable to open repository: " followed by the cause. *)
Theorem OpenRepository_after_Create {SL : StorageLaws St}
    {Repository : Type} {TE : @TokenEnv St ConnectionInfo}
    {RE : RepoEnv St RepoFormat Repository}
    (vaultFormat : Format) (creds : Credentials) (cip : ConnectionInfo)
    (repoFormat : RepoFormat) (w0 w1 : World St) (v : Vault) :
  Encryption vaultFormat = "none" ∨ aes_enabled vaultFormat →
  Checksum vaultFormat = "hmac-sha-256" →
  (∀ rb, json_Marshal {| Connection := cip; RFormat := repoFormat |} = inl rb →
         json_Unmarshal rb zero_repositoryConfig
           = ({| Connection := cip; RFormat := repoFormat |}, None)) →
  Create vaultFormat creds (Some cip) repoFormat w0 = (Ok v, w1) →
  (OpenRepository v w1).1 =
    match blob_NewStorage cip with
    | inl storage => of_sum (repo_NewRepository storage repoFormat)
    | inr err => Err ("unable to open repository: " +:+ err)
    end.
Proof.
  intros He Hk Hj HC.
  pose proof (repoConfig_after_Create _ _ _ _ _ _ _ He Hk Hj HC) as Hrc.
  unfold OpenRepository, mbind, M_mbind, M_bind, lift.
  destruct (repoConfig v w1) as [o w']. cbn [fst] in Hrc. subst o.
  cbn [Connection RFormat]. by destruct (blob_NewStorage cip).
Qed.

(** X13.  Unlike [getJSON], [RepositoryFormat] and [OpenRepository]
    report a failed read of the "repo" item, as "unable to read
    repository: " followed by the cause: a store error, or the "incorrect
    checksum" of a block whose tag is wrong.  An error of
    [json.Unmarshal] is returned as it is. *)
Theorem repository_read_errors_are_wrapped
    {Repository : Type} {TE : @TokenEnv St ConnectionInfo}
    {RE : RepoEnv St RepoFormat Repository}
    (v : Vault) (w : World St) :
  (∀ e w', readEncryptedBlock v repositoryConfigBlock w = (Err e, w') →
     RepositoryFormat v w = (Err ("unable to read repository: " +:+ e), w')
     ∧ OpenRepository v w = (Err ("unable to read repository: " +:+ e), w'))
  ∧ (∀ e, GetBlock repositoryConfigBlock (storage w) = inr e →
     (RepositoryFormat v w).1 = Err ("unable to read repository: " +:+ e))
  ∧ (∀ content, aes_enabled (format v) → Checksum (format v) = "hmac-sha-256" →
     GetBlock repositoryConfigBlock (storage w) = inl content →
     (32 ≤ length content)%nat →
     drop (length content - 32) content
       ≠ vec_to_list (hmac_sha256 (deriveKey v purposeChecksumSecret 32).1
                        (take (length content - 32) content)) →
     (RepositoryFormat v w).1
       = Err ("unable to read repository: " +:+ incorrect_checksum))
  ∧ (∀ b w' rc e, readEncryptedBlock v repositoryConfigBlock w = (Ok b, w') →
     json_Unmarshal b zero_repositoryConfig = (rc, Some e) →
     RepositoryFormat v w = (Err e, log (EvUnmarshal b) w')
     ∧ OpenRepository v w = (Err e, log (EvUnmarshal b) w')).
Proof.
  assert (∀ e w', readEncryptedBlock v repositoryConfigBlock w = (Err e, w') →
     RepositoryFormat v w = (Err ("unable to read repository: " +:+ e), w')
     ∧ OpenRepository v w = (Err ("unable to read repository: " +:+ e), w')) as H1.
  { intros e w' E.
    unfold RepositoryFormat, OpenRepository, mbind, M_mbind, M_bind, repoConfig.
    by rewrite E. }
  split; [done|]. split; [|split].
  - intros e Hg. by rewrite (proj1 (H1 _ _ (read_storage_error v _ e w Hg))).
  - intros content Ha Hk Hg Hl Hm. destruct (newCipher_aes v Ha) as [blk Hc].
    by rewrite (proj1 (H1 _ _ (read_mismatch v blk _ _ content w Hc
                                 (newChecksum_hmac v Hk) Hg Hl (not_eq_sym Hm)))).
  - intros b w' rc e E Hu.
    unfold RepositoryFormat, OpenRepository, mbind, M_mbind, M_bind, repoConfig,
      jsonUnmarshal.
    by rewrite E, Hu.
Qed.

(** X14.  [Get], [Open] and [RepositoryFormat] never write: whatever
    they return, the store and the random source are as they were. *)
Theorem reading_never_writes (v : Vault) (itemID : string)
    (creds : Credentials) (w : World St) :
  (storage (Get v itemID w).2 = storage w
   ∧ entropy (Get v itemID w).2 = entropy w)
  ∧ (storage (Open creds w).2 = storage w
     ∧ entropy (Open creds w).2 = entropy w)
  ∧ (storage (RepositoryFormat v w).2 = storage w
     ∧ entropy (RepositoryFormat v w).2 = entropy w).
Proof.
  assert (∀ v itemID (w : World St),
            storage (readEncryptedBlock v itemID w).2 = storage w
            ∧ entropy (readEncryptedBlock v itemID w).2 = entropy w) as Hr.
  { intros v0 i0 w0.
    unfold readEncryptedBlock, mbind, M_mbind, M_bind, lift, storage_GetBlock,
      XORKeyStream, mret, M_mret, M_ret.
    repeat case_match; by cbn. }
  split; [apply Hr|]. split.
  - unfold Open, mbind, M_mbind, M_bind, lift, storage_GetBlock, jsonUnmarshal,
      mret, M_mret, M_ret.
    destruct (of_sum (GetBlock formatBlockID (storage w))) as [f|e|why];
      [|done..].
    destruct (json_Unmarshal f zeroFormat) as [fmt [e|]]; [done|].
    match goal with
    | |- context [readEncryptedBlock ?v0 ?i0 ?w0] =>
        destruct (Hr v0 i0 w0) as [Hs He];
        destruct (readEncryptedBlock v0 i0 w0) as [[b|e|why] w']
    end; cbn [snd] in *; by rewrite Hs, He.
  - unfold RepositoryFormat, repoConfig, mbind, M_mbind, M_bind, jsonUnmarshal,
      mret, M_mret, M_ret.
    destruct (Hr v repositoryConfigBlock w) as [Hs He].
    destruct (readEncryptedBlock v repositoryConfigBlock w) as [[b|e|why] w'];
      cbn [snd] in *; [|done..].
    destruct (json_Unmarshal b zero_repositoryConfig) as [rc [e|]]; by cbn.
Qed.

(** X15.  [Create] with an encryption name the package does not know
    fails with "unsupported encryption format: " followed by the name,
    but only at the first encrypted write: by then it has drawn 544 random
    bytes and called [PutBlock] for the "format" item, which stays in the
    store. *)
Theorem Create_leaves_format_behind (vaultFormat : Format)
    (creds : Credentials) (cip : ConnectionInfo) (repoFormat : RepoFormat)
    (w0 : World St) (fb : bytes) :
  Encryption vaultFormat ≠ "none" → ¬ aes_enabled vaultFormat →
  (544 ≤ length (entropy w0))%nat →
  json_Marshal {| Version := "1"; Encryption := Encryption vaultFormat;
                  Checksum := Checksum vaultFormat;
                  UniqueID := take 32 (entropy w0) |} = inl fb →
  Create vaultFormat creds (Some cip) repoFormat w0
    = (Err ("unsupported encryption format: " +:+ Encryption vaultFormat),
       mkWorld (PutBlock formatBlockID fb (storage w0)).2
         (drop 544 (entropy w0))
         (trace w0 ++ [EvRandRead 32; EvPutBlock formatBlockID fb;
                       EvRandRead 512])).
Proof.
  intros Hn Ha He Hfb.
  unfold Create, mbind, M_mbind, M_bind.
  unfold rand_ReadFull at 1. rewrite decide_True by lia.
  unfold lift at 1. rewrite Hfb. cbn [of_sum].
  unfold discard_error, storage_PutBlock. cbn [storage entropy trace].
  destruct (PutBlock formatBlockID fb (storage w0)) as [o s'] eqn:HP.
  destruct o as [e|]; cbn [snd];
    unfold rand_ReadFull; cbn [entropy storage trace];
    rewrite decide_True by (rewrite length_drop; lia);
    match goal with
    | |- context [Put ?v0 ?i ?p ?w] =>
        rewrite (Put_unsupported_encryption v0 i p w Hn Ha)
    end;
    rewrite drop_drop, <- !app_assoc; done.
Qed.


Lemma List_range_app (pre rest : list BlockMetadata) (result : list string) :
  Forall (λ b, Error b = None) pre →
  List_range (pre ++ rest) result = List_range rest (result ++ (BlockID <$> pre)).
Proof.
  revert result. induction pre as [|b pre IH]; intros result Hp; cbn.
  - by rewrite app_nil_r.
  - apply Forall_cons in Hp as [Hb Hp]. rewrite Hb, IH by done.
    by rewrite <- app_assoc.
Qed.

(** X16.  [List] returns the ids of the listed blocks in order with a
    nil error when no entry carries an error; otherwise it returns the
    ids that precede the first entry with an error, and that error. *)
Theorem List_stops_at_the_first_error {LS : Listing St}
    (prefix : string) (w : World St) :
  (Forall (λ b, Error b = None) (ListBlocks prefix (storage w)) →
     List prefix w = (Ok (BlockID <$> ListBlocks prefix (storage w), None), w))
  ∧ (∀ pre b post e,
       ListBlocks prefix (storage w) = pre ++ b :: post →
       Forall (λ b, Error b = None) pre → Error b = Some e →
       List prefix w = (Ok (BlockID <$> pre, Some e), w)).
Proof.
  unfold List. split.
  - intros Hall.
    rewrite <- (app_nil_r (ListBlocks prefix (storage w))) at 1.
    by rewrite List_range_app.
  - intros pre b post e -> Hpre Hb. rewrite List_range_app by done.
    cbn. by rewrite Hb.
Qed.

(** X17.  [Token] is the base64 of the JSON of the store's connection
    descriptor and the master key, and [OpenWithToken] of that token
    runs [Open], with the credentials [MasterKey] makes of the vault's
    master key, on the store [blob.NewStorage] makes of the descriptor,
    provided the two decoders undo the two encoders on this payload. *)
Theorem OpenWithToken_of_Token
    {CP : ConnectionInfoProvider St ConnectionInfo} {BE : Base64Encoder}
    {TE : @TokenEnv St ConnectionInfo}
    (v : Vault) (ci : ConnectionInfo) (b : bytes) (w w' : World St)
    (st : St) (creds : Credentials) :
  provided_ConnectionInfo (storage w) = Some ci →
  json_Marshal {| VConnectionInfo := ci; Key := masterKey v |} = inl b →
  base64_RawURLEncoding_DecodeString (base64_RawURLEncoding_EncodeToString b)
    = inl b →
  json_Unmarshal b zero_vaultConfig
    = ({| VConnectionInfo := ci; Key := masterKey v |}, None) →
  blob_NewStorage ci = inl st →
  MasterKey (masterKey v) = inl creds →
  Token v w = (Ok (base64_RawURLEncoding_EncodeToString b), w)
  ∧ OpenWithToken (base64_RawURLEncoding_EncodeToString b) w'
    = Open creds (mkWorld st (entropy w') (trace w' ++ [EvUnmarshal b])).
Proof.
  intros Hci Hb Hb64 Hjson Hst Hmk. split.
  - unfold Token. by rewrite Hci, Hb.
  - unfold OpenWithToken, mbind, M_mbind, M_bind, jsonUnmarshal.
    rewrite Hb64, Hjson. cbn [VConnectionInfo Key]. by rewrite Hst, Hmk.
Qed.

End more_lifecycle_facts.

(** ** Reopening a vault on the in-memory store *)

Section more_mapStorage_facts.
Context {C : Crypto} {ConnectionInfo RepoFormat : Type}.
Context {JF : Json Format} {JR : Json (@repositoryConfig ConnectionInfo RepoFormat)}.

(** X18.  On the in-memory store, with AES encryption, [Open] with the
    credentials [Create] was given returns the vault [Create] returned. *)
Theorem Open_after_Create_with_the_same_credentials (vaultFormat : Format)
    (creds : Credentials) (cip : ConnectionInfo) (repoFormat : RepoFormat)
    (w0 w1 : World Store) (v : Vault) :
  aes_enabled vaultFormat → Checksum vaultFormat = "hmac-sha-256" →
  Create vaultFormat creds (Some cip) repoFormat w0 = (Ok v, w1) →
  (∀ fb, json_Marshal (format v) = inl fb →
         json_Unmarshal fb zeroFormat = (format v, None)) →
  (Open creds w1).1 = Ok v.
Proof.
  intros Ha Hk HC Hj.
  destruct (Create_mapStorage _ _ _ _ _ _ _ Ha Hk HC)
    as (fb & iv & ct & hash & Hfmt & Hmk & Hfb & Hsf & Hh & Liv & Hsc).
  assert (aes_enabled (format v)) as Ha' by (by rewrite Hfmt).
  assert (v = {| masterKey := getMasterKey creds (UniqueID (format v));
                 format := format v |}) as Hv.
  { destruct v as [mk f]. cbn in *. rewrite Hmk. by subst f. }
  rewrite (Open_mapStorage creds w1 fb (format v) iv ct
             (Sum hash (iv ++ ct)) hash Hsf (Hj fb Hfb) Ha' Hsc Liv
             (Sum_length _ _)).
  - rewrite decide_True by done. by rewrite <- Hv.
  - by rewrite <- Hv.
Qed.

(** X19.  On the in-memory store, a vault created with encryption
    "none" has its "checksum" item stored as the 512 random bytes
    themselves, and [Open] succeeds with every credentials: without
    encryption nothing verifies the master key. *)
Theorem Open_checks_nothing_without_encryption (vaultFormat : Format)
    (creds : Credentials) (cip : ConnectionInfo) (repoFormat : RepoFormat)
    (w0 w1 : World Store) (v : Vault) :
  Encryption vaultFormat = "none" →
  Create vaultFormat creds (Some cip) repoFormat w0 = (Ok v, w1) →
  (∀ fb, json_Marshal (format v) = inl fb →
         json_Unmarshal fb zeroFormat = (format v, None)) →
  storage w1 !! checksumBlockID = Some (take 512 (drop 32 (entropy w0)))
  ∧ ∀ creds' : Credentials,
      (Open creds' w1).1 =
        Ok {| masterKey := getMasterKey creds' (UniqueID (format v));
              format := format v |}.
Proof.
  intros Hn HC Hj.
  destruct (Create_steps _ _ _ _ _ _ _ HC)
    as (cip' & fb & rb & wA & wB & _ & He & Hv & Hfb & HsA & HeA & He2 & HP1 & Hrb & HP2).
  assert (Encryption (format v) = "none") as Hn' by (by rewrite Hv).
  rewrite (Put_none v _ _ _ Hn') in HP1. rewrite (Put_none v _ _ _ Hn') in HP2.
  unfold storage_PutBlock in HP1, HP2.
  cbn [PutBlock mapStorage storage entropy trace] in HP1, HP2, HsA.
  injection HP1 as <-. injection HP2 as <-.
  cbn [storage]. rewrite HsA, HeA. cbn [snd]. split.
  - rewrite lookup_insert_ne by done. by rewrite lookup_insert_eq.
  - intros creds'.
    unfold Open, mbind, M_mbind, M_bind, storage_GetBlock, jsonUnmarshal.
    cbn [GetBlock mapStorage storage].
    rewrite lookup_insert_ne by done. rewrite lookup_insert_ne by done.
    rewrite lookup_insert_eq. cbn [of_sum]. rewrite (Hj fb Hfb).
    rewrite read_none by done.
    cbn [GetBlock mapStorage storage log].
    rewrite lookup_insert_ne by done. by rewrite lookup_insert_eq.
Qed.
End more_mapStorage_facts.

(** * The model at concrete inputs *)

#[local] Existing Instance Toy.crypto.
#[local] Existing Instance Toy.json_Format.
#[local] Existing Instance Toy.json_repositoryConfig.
#[local] Existing Instance Toy.json_vaultConfig.
#[local] Existing Instance Toy.tokenEnv.

(** C8 (as stated) does not hold: the token "!" (not base64) and the
    empty token (base64 of no bytes, which is not JSON) are both rejected
    before any store is opened, with two different messages, each naming
    the part that was wrong.  On these two tokens the stand-in decoders
    answer as [encoding/base64] and [encoding/json] do, and the two
    prefixes differ whatever the decoders report. *)
Lemma OpenWithToken_messages_differ :
  (OpenWithToken "!" Example.w).1
    = Err "invalid vault base64 token: illegal base64 data at input byte 0"%string
  ∧ (OpenWithToken "" Example.w).1
    = Err "invalid vault json token: unexpected end of JSON input"%string
  ∧ (OpenWithToken "!" Example.w).1 ≠ (OpenWithToken "" Example.w).1.
Proof. repeat split; by vm_compute. Qed.

(** C7 (what the code does).  On a store that refuses the write of
    "format" and accepts every other write, [Create] still returns a
    vault: the refused [PutBlock] is in the trace, the store holds
    "checksum" and "repo" and no "format". *)
Theorem Create_ignores_failed_format_write :
  PutBlock formatBlockID Example.format_bytes (storage Example.w_denied)
    = (Some "write denied"%string, storage Example.w_denied)
  ∧ (Create (format128 []) (Example.creds [x01]) (Some []) [] Example.w_denied).1
    = Ok {| masterKey := [x01]; format := format128 (replicate 32 x07) |}
  ∧ ∀ w1, w1 = (Create (format128 []) (Example.creds [x01]) (Some []) []
                   Example.w_denied).2 →
      GetBlock formatBlockID (storage w1) = inr NotFound
      ∧ trace w1 !! 1%nat = Some (EvPutBlock formatBlockID Example.format_bytes)
      ∧ (∃ b, GetBlock checksumBlockID (storage w1) = inl b)
      ∧ (∃ b, GetBlock repositoryConfigBlock (storage w1) = inl b).
Proof.
  split; [done|]. split; [by vm_compute|].
  intros w1 ->. split; [by vm_compute|]. split; [by vm_compute|].
  split; eexists; by vm_compute.
Qed.

(** Runs of the theorems above on the example inputs. *)

Lemma Put_readEncryptedBlock_roundtrip_witness :
  (readEncryptedBlock Example.v "x"
     (Put Example.v "x" Example.hello Example.w).2).1 = Ok Example.hello.
Proof.
  apply (Put_readEncryptedBlock_roundtrip Example.v "x" Example.hello Example.w).
  - right. left. reflexivity.
  - reflexivity.
  - vm_compute. reflexivity.
Defined.

Lemma readEncryptedBlock_verifies_first_witness :
  readEncryptedBlock Example.v "x" Example.w_tampered
    = (Err incorrect_checksum, log (EvGetBlock "x") Example.w_tampered).
Proof.
  destruct (readEncryptedBlock_verifies_first Example.v "x"
              (replicate 51 x00) Example.w_tampered)
    as (hash & evs & Hh & _ & Hmis & _).
  - left. reflexivity.
  - reflexivity.
  - reflexivity.
  - apply Hmis.
    + rewrite length_replicate. lia.
    + vm_compute in Hh. injection Hh as <-. vm_compute. reflexivity.
Defined.

Lemma Put_blob_layout_witness :
  ∃ iv ct tag,
    trace (Put Example.v "x" Example.hello Example.w).2
      = [EvRandRead 16; EvXORKeyStream iv Example.hello;
         EvPutBlock "x" (iv ++ ct ++ tag)]
    ∧ len iv = 16 ∧ len ct = len Example.hello ∧ len tag = 32.
Proof.
  destruct (Put_blob_layout Example.v "x" Example.hello Example.w)
    as (blk & hash & iv & ct & tag & _ & _ & HP & _ & _ & Liv & _ & Lct & _ & _ & Ltag).
  - left. reflexivity.
  - reflexivity.
  - cbn. lia.
  - exists iv, ct, tag. rewrite HP. repeat split; assumption.
Defined.

Lemma encryption_none_is_identity_witness :
  Put Example.v_none "x" Example.hello Example.w
    = storage_PutBlock "x" Example.hello Example.w
  ∧ entropy (Put Example.v_none "x" Example.hello Example.w).2 = entropy Example.w.
Proof.
  destruct (encryption_none_is_identity Example.v_none "x" Example.hello Example.w)
    as (HP & He & _).
  - reflexivity.
  - split; assumption.
Defined.

Lemma Open_checks_the_sentinel_tag_witness :
  ∃ body tag,
    storage Example.w_created !! checksumBlockID = Some (body ++ tag)
    ∧ ∀ creds' : Credentials,
        (Open creds' Example.w_created).1 =
          if decide (vec_to_list
                       (hmac_sha256
                          (hkdf_ReadFull (getMasterKey creds' (replicate 32 x07))
                             (replicate 32 x07) purposeChecksumSecret 32).1 body)
                     = tag)
          then Ok {| masterKey := getMasterKey creds' (replicate 32 x07);
                     format := format128 (replicate 32 x07) |}
          else Err incorrect_checksum.
Proof.
  destruct (Open_checks_the_sentinel_tag (format128 []) (Example.creds [x01])
              [] [] Example.w_fresh Example.w_created Example.v_created)
    as (body & tag & Hs & _ & Hopen).
  - left. reflexivity.
  - reflexivity.
  - vm_compute. reflexivity.
  - intros fb [= <-]. vm_compute. reflexivity.
  - exists body, tag. split; [exact Hs | exact Hopen].
Defined.

(** In the example the right key opens the vault and another key, whose
    MAC key differs, is turned away. *)
Example Open_right_and_wrong_key :
  (Open (Example.creds [x01]) Example.w_created).1 = Ok Example.v_created
  ∧ (Open (Example.creds [x02]) Example.w_created).1 = Err incorrect_checksum.
Proof. split; by vm_compute. Qed.

Lemma getJSON_swallows_read_errors_witness :
  getJSON Example.v "missing" zeroFormat Example.w
    = (Ok (zeroFormat, None), log (EvGetBlock "missing") Example.w).
Proof.
  apply (getJSON_swallows_read_errors Example.v "missing" zeroFormat Example.w
           (log (EvGetBlock "missing") Example.w) NotFound).
  reflexivity.
Defined.

(** The three failing reads: an absent block, a format naming an unknown
    cipher, a block whose tag is wrong.  [getJSON] reports none of them. *)
Example getJSON_three_failures :
  (readEncryptedBlock Example.v "missing" Example.w).1 = Err NotFound
  ∧ (getJSON Example.v "missing" zeroFormat Example.w).1 = Ok (zeroFormat, None)
  ∧ (readEncryptedBlock Example.v_aes512 "x" Example.w_tampered).1
      = Err "unsupported encryption format: aes-512"%string
  ∧ (getJSON Example.v_aes512 "x" zeroFormat Example.w_tampered).1
      = Ok (zeroFormat, None)
  ∧ (readEncryptedBlock Example.v "x" Example.w_tampered).1 = Err incorrect_checksum
  ∧ (getJSON Example.v "x" zeroFormat Example.w_tampered).1 = Ok (zeroFormat, None).
Proof. repeat split; by vm_compute. Qed.

Lemma Remove_protects_reserved_items_witness :
  Remove Example.v "repo" Example.w_short
    = (Err "item cannot be deleted: repo"%string, Example.w_short)
  ∧ (Get Example.v "x" (Remove Example.v "x" Example.w_short).2).1 = Err NotFound.
Proof.
  split.
  - apply (Remove_protects_reserved_items Example.v "repo" Example.w_short).
    right. left. reflexivity.
  - destruct (Remove_protects_reserved_items Example.v "x" Example.w_short)
      as [_ Hother].
    destruct Hother as (_ & _ & Hget).
    + intros [E|[E|E]]; discriminate E.
    + apply Hget. reflexivity.
Defined.

Lemma readEncryptedBlock_panics_on_short_blocks_witness :
  (Get Example.v "x" Example.w_short).1 = Panic "slice bounds out of range".
Proof.
  destruct (readEncryptedBlock_panics_on_short_blocks Example.v "x"
              (replicate 31 x00) Example.w_short) as [Hshort _].
  - left. reflexivity.
  - reflexivity.
  - reflexivity.
  - apply Hshort. rewrite length_replicate. lia.
Defined.

(** Runs of the further theorems on the example inputs. *)

Lemma unsupported_encryption_is_reported_witness :
  Put Example.v_aes512 "x" Example.hello Example.w
    = (Err "unsupported encryption format: aes-512"%string, Example.w).
Proof.
  apply (unsupported_encryption_is_reported Example.v_aes512 "x" Example.hello
           Example.w).
  - discriminate.
  - intros [E|[E|E]]; discriminate E.
Defined.

Lemma unsupported_checksum_is_reported_witness :
  Put Example.v_sha1 "x" Example.hello Example.w
    = (Err "unsupported checksum format: hmac-sha-1"%string, Example.w).
Proof.
  apply (unsupported_checksum_is_reported Example.v_sha1 "x" Example.hello
           Example.w).
  - left. reflexivity.
  - discriminate.
Defined.


Lemma tampered_tag_is_rejected_witness :
  ∃ body tag,
    GetBlock "x" (storage Example.w_put) = inl (body ++ tag)
    ∧ length tag = 32%nat.
Proof.
  destruct (tampered_tag_is_rejected Example.v "x" Example.hello Example.w
              Example.w_put) as (body & tag & Hg & _ & Lt & _).
  - left. reflexivity.
  - reflexivity.
  - vm_compute. reflexivity.
  - exists body, tag. split; assumption.
Defined.

Lemma Get_returns_only_authenticated_plaintext_witness :
  (48 ≤ length Example.stored_x)%nat
  ∧ length Example.hello = (length Example.stored_x - 48)%nat.
Proof.
  destruct (Get_returns_only_authenticated_plaintext Example.v "x"
              Example.stored_x Example.hello Example.w_put)
    as (blk & _ & Hl & _ & Hp & _).
  - left. reflexivity.
  - reflexivity.
  - vm_compute. reflexivity.
  - vm_compute. reflexivity.
  - split; assumption.
Defined.

Lemma Put_leaves_other_items_witness :
  (Get Example.v "x" (Put Example.v_none "y" Example.hello Example.w_put).2).1
    = (Get Example.v "x" Example.w_put).1.
Proof.
  apply (Put_leaves_other_items Example.v_none Example.v "y" "x" Example.hello
           Example.w_put).
  discriminate.
Defined.

Lemma successive_Puts_draw_successive_IVs_witness :
  ∃ blob1 blob2,
    take 16 blob1 = replicate 16 x05 ∧ take 16 blob2 = replicate 16 x06
    ∧ blob1 ≠ blob2.
Proof.
  destruct (successive_Puts_draw_successive_IVs Example.v "x" "x"
              Example.hello Example.hello Example.w32
              (Put Example.v "x" Example.hello Example.w32).2)
    as (blob1 & blob2 & _ & _ & H1 & H2 & Hne).
  - left. reflexivity.
  - reflexivity.
  - cbn. lia.
  - vm_compute. reflexivity.
  - exists blob1, blob2. split; [exact H1|]. split; [exact H2|].
    apply Hne. discriminate.
Defined.

Lemma putJSON_getJSON_roundtrip_witness :
  (getJSON Example.v "f" zeroFormat
     (putJSON Example.v "f" (format128 [x09]) Example.w).2).1
    = Ok (format128 [x09], None).
Proof.
  apply (putJSON_getJSON_roundtrip Example.v "f" (format128 [x09]) zeroFormat
           Example.w).
  - right. left. reflexivity.
  - reflexivity.
  - intros b [= <-]. vm_compute. reflexivity.
  - vm_compute. reflexivity.
Defined.

Lemma Create_fixes_version_and_unique_id_witness :
  Version (format Example.v_plain) = "1"
  ∧ UniqueID (format Example.v_plain) = take 32 (entropy Example.w_fresh).
Proof.
  destruct (Create_fixes_version_and_unique_id Example.format_none
              (Example.creds [x01]) (Some []) [] Example.w_fresh
              Example.w_plain Example.v_plain) as (H1 & _ & _ & H2 & _).
  - vm_compute. reflexivity.
  - split; assumption.
Defined.

Lemma RepositoryFormat_after_Create_witness :
  (RepositoryFormat Example.v_plain
     (Create Example.format_none (Example.creds [x01]) (Some [x63])
        (String.list_byte_of_string "fmt") Example.w_fresh).2).1
    = Ok (String.list_byte_of_string "fmt").
Proof.
  apply (RepositoryFormat_after_Create Example.format_none (Example.creds [x01])
           [x63] (String.list_byte_of_string "fmt") Example.w_fresh).
  - left. reflexivity.
  - reflexivity.
  - intros rb [= <-]. vm_compute. reflexivity.
  - vm_compute. reflexivity.
Defined.

Lemma OpenRepository_after_Create_witness :
  (OpenRepository (RE := Toy.repoEnv) Example.v_plain
     (Create Example.format_none (Example.creds [x01]) (Some [x63])
        (String.list_byte_of_string "fmt") Example.w_fresh).2).1
    = Ok (∅, String.list_byte_of_string "fmt").
Proof.
  rewrite (OpenRepository_after_Create (RE := Toy.repoEnv) Example.format_none
             (Example.creds [x01]) [x63] (String.list_byte_of_string "fmt")
             Example.w_fresh).
  - reflexivity.
  - left. reflexivity.
  - reflexivity.
  - intros rb [= <-]. vm_compute. reflexivity.
  - vm_compute. reflexivity.
Defined.

Lemma Create_leaves_format_behind_witness :
  (Create Example.format512 (Example.creds [x01]) (Some []) [] Example.w_fresh).1
    = Err "unsupported encryption format: aes-512"%string
  ∧ is_Some (storage (Create Example.format512 (Example.creds [x01]) (Some []) []
                        Example.w_fresh).2 !! formatBlockID).
Proof.
  rewrite (Create_leaves_format_behind Example.format512 (Example.creds [x01])
             [] [] Example.w_fresh
             (String.list_byte_of_string "1" ++ x00
                :: String.list_byte_of_string "aes-512" ++ x00
                :: String.list_byte_of_string "hmac-sha-256" ++ x00
                :: replicate 32 x07)).
  - split; [reflexivity|]. cbn [snd storage]. eexists. apply lookup_insert_eq.
  - discriminate.
  - intros [E|[E|E]]; discriminate E.
  - cbn. lia.
  - reflexivity.
Defined.

Lemma OpenWithToken_of_Token_witness :
  Token (CP := Toy.provider) (BE := Toy.base64Encoder)
        Example.v_created Example.w_created
    = (Ok "e21lbQAB"%string, Example.w_created)
  ∧ (OpenWithToken (TE := Toy.tokenEnv_on (storage Example.w_created))
       "e21lbQAB" Example.w).1 = Ok Example.v_created.
Proof.
  destruct (OpenWithToken_of_Token (CP := Toy.provider)
              (BE := Toy.base64Encoder)
              (TE := Toy.tokenEnv_on (storage Example.w_created))
              Example.v_created (String.list_byte_of_string "mem")
              Example.token_bytes Example.w_created Example.w
              (storage Example.w_created) (Example.creds [x01]))
    as [HT HO].
  - reflexivity.
  - reflexivity.
  - vm_compute. reflexivity.
  - vm_compute. reflexivity.
  - reflexivity.
  - reflexivity.
  - split; [exact HT|].
    change "e21lbQAB"%string
      with (base64_RawURLEncoding_EncodeToString (Base64Encoder := Toy.base64Encoder)
              Example.token_bytes).
    rewrite HO. vm_compute. reflexivity.
Defined.

Lemma Open_after_Create_with_the_same_credentials_witness :
  (Open (Example.creds [x01]) Example.w_created).1 = Ok Example.v_created.
Proof.
  apply (Open_after_Create_with_the_same_credentials (format128 [])
           (Example.creds [x01]) [] [] Example.w_fresh).
  - left. reflexivity.
  - reflexivity.
  - vm_compute. reflexivity.
  - intros fb [= <-]. vm_compute. reflexivity.
Defined.

Lemma Open_checks_nothing_without_encryption_witness :
  (Open (Example.creds [x09; x09]) Example.w_plain).1
    = Ok {| masterKey := [x09; x09]; format := format Example.v_plain |}.
Proof.
  destruct (Open_checks_nothing_without_encryption Example.format_none
              (Example.creds [x01]) [] [] Example.w_fresh Example.w_plain
              Example.v_plain) as [_ Hopen].
  - reflexivity.
  - vm_compute. reflexivity.
  - intros fb [= <-]. vm_compute. reflexivity.
  - apply (Hopen (Example.creds [x09; x09])).
Defined.
